(** * The join hash table of be/src/exec/hash-table.h

  A shallow embedding of [impala::HashTable]: a multi-set that indexes
  [TupleRow*] by the values of a set of expressions, together with the
  iterator it hands out from [Scan].

  What hash-table.h defines inline is transcribed here function by
  function: [Insert], [size], [Iterator::GetNext], [Iterator::HasNext],
  [Iterator::SkipToEnd], [Iterator::Reset] and [Scan].  The bodies of
  [HashFn::operator()], [EqualsFn::operator()], [HasNulls] and of the
  constructor live in hash-table.cc; they are modelled from the
  specification and marked as such.  [boost::unordered_multiset] is
  modelled by its grouped node list. *)

From Stdlib Require Import ZArith Lia.
From stdpp Require Import numbers relations list.

Local Open Scope Z_scope.

Module impala.

(** ** C++ scalars *)

(** [int size()] returns the container's [size_t] count converted to an
  [int] of 32 bits: as the compilers the backend is built with define that
  conversion, the value is reduced modulo 2^32 into the signed range. *)
Definition int_of_size_t (n : Z) : Z :=
  let m := n mod 2 ^ 32 in
  if m <? 2 ^ 31 then m else m - 2 ^ 32.

Definition INT_MAX : Z := 2 ^ 31 - 1.

(** ** boost::unordered_multiset<K, Hash, Pred>

  The container keeps its nodes in one list in which equivalent keys are
  adjacent (a group); every group remembers the hash code its nodes were
  filed under.  Buckets are contiguous runs of groups, so what a lookup
  sees is: the first group, in iteration order, filed under the hash of
  the key and whose first node the predicate accepts. *)
Section unordered_multiset.
Context {K : Type}.

Record node_group := NodeGroup {
  group_hash : N;
  group_first : K;
  group_rest : list K
}.

Definition group_nodes (g : node_group) : list K :=
  group_first g :: group_rest g.

Definition HashSet := list node_group.

(** The nodes in iteration order, [begin()] to [end()]. *)
Definition HashSet_elements (s : HashSet) : list K :=
  concat (map group_nodes s).

(** [size()], as a [size_t]. *)
Definition HashSet_size (s : HashSet) : nat :=
  length (HashSet_elements s).

(** Iterators are positions in the node list. *)
Definition HashSet_begin (s : HashSet) : nat := 0%nat.
Definition HashSet_end (s : HashSet) : nat := HashSet_size s.

Variable hash : K → N.
Variable pred : K → K → bool.

Definition group_accepts (h : N) (k : K) (g : node_group) : bool :=
  (group_hash g =? h)%N && pred k (group_first g).

(** [insert(v)] always adds a node: at the end of the group equivalent to
    [v] when there is one, else as a group of its own. *)
Fixpoint add_to_group (h : N) (v : K) (s : HashSet) : option HashSet :=
  match s with
  | [] => None
  | g :: s' =>
      if group_accepts h v g
      then Some (NodeGroup (group_hash g) (group_first g) (group_rest g ++ [v]) :: s')
      else cons g <$> add_to_group h v s'
  end.

Definition HashSet_insert (v : K) (s : HashSet) : HashSet :=
  let h := hash v in
  match add_to_group h v s with
  | Some s' => s'
  | None => NodeGroup h v [] :: s
  end.

(** [equal_range(k)]: the positions of the group equivalent to [k], or
    [(end(), end())] when there is none. *)
Fixpoint equal_range_from (h : N) (k : K) (s : HashSet) (pos : nat) : nat * nat :=
  match s with
  | [] => (pos, pos)
  | g :: s' =>
      if group_accepts h k g
      then (pos, (pos + length (group_nodes g))%nat)
      else equal_range_from h k s' (pos + length (group_nodes g))%nat
  end.

Definition HashSet_equal_range (k : K) (s : HashSet) : nat * nat :=
  equal_range_from (hash k) k s 0.
End unordered_multiset.

Arguments node_group : clear implicits.
Arguments HashSet : clear implicits.

(** ** HashTable *)
Section HashTable.
(** [Expr], [RowDescriptor] and [TupleRow] are only declared in the
    header; a [Value] is what an expression evaluates to. *)
Context {Expr RowDescriptor TupleRow Value : Type}.
Context `{!EqDecision Value}.

(** A [TupleRow*]; [NULL] is the "no row" sentinel. *)
Abbreviation TupleRowPtr := (option TupleRow).
Abbreviation NULL := (@None TupleRow).

(** [Expr::GetValue] on a [TupleRow*]: the value of an expression over a row,
    [None] for SQL NULL. *)
Variable GetValue : Expr → TupleRowPtr → option Value.

(** The mix that folds one more value into a hash code, and its seed. *)
Variable hash_seed : N.
Variable hash_combine : N → option Value → N.

(** The members of the class.  [hash_fn_] and [equals_fn_] hold nothing
  but a pointer back to the table: they are [HashFn] and [EqualsFn] below,
  applied to the table. *)
Record HashTable := mkHashTable {
  hash_tbl_ : HashSet TupleRowPtr;
  build_exprs1_ : list Expr;
  build_exprs2_ : list Expr;
  probe_exprs_ : list Expr;
  build_row_desc_ : RowDescriptor;
  current_probe_row_ : TupleRowPtr;
  stores_nulls_ : bool
}.

Definition set_hash_tbl (s : HashSet TupleRowPtr) (ht : HashTable) : HashTable :=
  mkHashTable s (build_exprs1_ ht) (build_exprs2_ ht) (probe_exprs_ ht)
    (build_row_desc_ ht) (current_probe_row_ ht) (stores_nulls_ ht).

Definition set_current_probe_row (r : TupleRowPtr) (ht : HashTable) : HashTable :=
  mkHashTable (hash_tbl_ ht) (build_exprs1_ ht) (build_exprs2_ ht) (probe_exprs_ ht)
    (build_row_desc_ ht) r (stores_nulls_ ht).

(** The key tuple of a row under a key-expression set. *)
Definition eval_exprs (exprs : list Expr) (row : TupleRowPtr) : list (option Value) :=
  map (λ e, GetValue e row) exprs.

(** Modelled from the spec: the constructor (hash-table.cc is missing).
    It fixes the three expression sets, the row descriptor and the null
    policy; the multi-set starts empty and no row is being probed. *)
Definition HashTable_new (build_exprs1 build_exprs2 probe_exprs : list Expr)
    (build_row_desc : RowDescriptor) (stores_nulls : bool) : HashTable :=
  mkHashTable [] build_exprs1 build_exprs2 probe_exprs build_row_desc NULL stores_nulls.

(** Modelled from the spec: the body of [HashFn::operator()]
    (hash-table.cc is missing).  A real row is hashed through the second
    build expressions, the sentinel through the probe expressions over
    [current_probe_row_]; the values are mixed one after the other. *)
Fixpoint hash_values (exprs : list Expr) (row : TupleRowPtr) (seed : N) : N :=
  match exprs with
  | [] => seed
  | e :: exprs' => hash_values exprs' row (hash_combine seed (GetValue e row))
  end.

(** Modelled from the spec: [HashFn::operator()] (hash-table.cc is
  missing), dispatching on the sentinel as its header comment says. *)
Definition HashFn (ht : HashTable) (r : TupleRowPtr) : N :=
  match r with
  | None => hash_values (probe_exprs_ ht) (current_probe_row_ ht) hash_seed
  | Some _ => hash_values (build_exprs2_ ht) r hash_seed
  end.

(** Modelled from the spec: the body of [EqualsFn::operator()]
    (hash-table.cc is missing).  Each side is resolved on its own: the
    sentinel to the probe expressions over [current_probe_row_], a real
    row to build expressions over that row ([a] through the first copy,
    [b] through the second: the two copies exist so that two build rows
    can be evaluated at once).  The sides are compared value by value;
    two nulls are equal only when the table stores nulls. *)
Fixpoint equal_values (stores_nulls : bool)
    (a_exprs : list Expr) (a_row : TupleRowPtr)
    (b_exprs : list Expr) (b_row : TupleRowPtr) : bool :=
  match a_exprs, b_exprs with
  | [], [] => true
  | ea :: a_exprs', eb :: b_exprs' =>
      match GetValue ea a_row, GetValue eb b_row with
      | None, None =>
          if stores_nulls
          then equal_values stores_nulls a_exprs' a_row b_exprs' b_row
          else false
      | Some va, Some vb =>
          if decide (va = vb)
          then equal_values stores_nulls a_exprs' a_row b_exprs' b_row
          else false
      | _, _ => false
      end
  | _, _ => false
  end.

(** Modelled from the spec: [EqualsFn::operator()] (hash-table.cc is
  missing), each side resolved on its own. *)
Definition EqualsFn (ht : HashTable) (a b : TupleRowPtr) : bool :=
  let a_exprs := match a with None => probe_exprs_ ht | Some _ => build_exprs1_ ht end in
  let a_row := match a with None => current_probe_row_ ht | Some _ => a end in
  let b_exprs := match b with None => probe_exprs_ ht | Some _ => build_exprs2_ ht end in
  let b_row := match b with None => current_probe_row_ ht | Some _ => b end in
  equal_values (stores_nulls_ ht) a_exprs a_row b_exprs b_row.

(** Modelled from the spec: the body of [HasNulls] (hash-table.cc is
    missing): true if any of the first build expressions returns NULL. *)
Fixpoint any_null (exprs : list Expr) (row : TupleRowPtr) : bool :=
  match exprs with
  | [] => false
  | e :: exprs' =>
      match GetValue e row with
      | None => true
      | Some _ => any_null exprs' row
      end
  end.

(** Modelled from the spec: [HasNulls] (hash-table.cc is missing), over
  the first build expressions. *)
Definition HasNulls (ht : HashTable) (build_row : TupleRowPtr) : bool :=
  any_null (build_exprs1_ ht) build_row.

(** [void Insert(TupleRow* r)] *)
Definition Insert (r : TupleRowPtr) (ht : HashTable) : HashTable :=
  if negb (stores_nulls_ ht) && HasNulls ht r
  then ht
  else set_hash_tbl (HashSet_insert (HashFn ht) (EqualsFn ht) r (hash_tbl_ ht)) ht.

(** The test [Insert] makes before it touches the multi-set. *)
Definition rejects (ht : HashTable) (r : TupleRowPtr) : bool :=
  negb (stores_nulls_ ht) && HasNulls ht r.

(** [int size() const] *)
Definition size (ht : HashTable) : Z :=
  int_of_size_t (Z.of_nat (HashSet_size (hash_tbl_ ht))).

(** *** Iterator *)
Record Iterator := mkIterator {
  i_ : nat;
  end_ : nat
}.

Definition HasNext (it : Iterator) : bool :=
  negb (i_ it =? end_ it)%nat.

(** [*i_]: the node an iterator of [ht] points at.  Dereferencing a
    position that is no node of the table has no defined result in C++;
    here it reads as [NULL]. *)
Definition deref (ht : HashTable) (i : nat) : TupleRowPtr :=
  default NULL (HashSet_elements (hash_tbl_ ht) !! i).

(** [TupleRow* GetNext()]: the row returned and the iterator afterwards. *)
Definition GetNext (ht : HashTable) (it : Iterator) : TupleRowPtr * Iterator :=
  if negb (HasNext it) then (NULL, it)
  else (deref ht (i_ it), mkIterator (S (i_ it)) (end_ it)).

Definition SkipToEnd (it : Iterator) : Iterator :=
  mkIterator (end_ it) (end_ it).

Definition Reset (range : nat * nat) (it : Iterator) : Iterator :=
  mkIterator (fst range) (snd range).

(** [void Scan(TupleRow* probe_row, Iterator* it)]: the table and the
    iterator afterwards. *)
Definition Scan (probe_row : TupleRowPtr) (it : Iterator) (ht : HashTable)
    : HashTable * Iterator :=
  let ht := set_current_probe_row probe_row ht in
  match probe_row with
  | Some _ =>
      (ht, Reset (HashSet_equal_range (HashFn ht) (EqualsFn ht) NULL (hash_tbl_ ht)) it)
  | None =>
      (ht, Reset (HashSet_begin (hash_tbl_ ht), HashSet_end (hash_tbl_ ht)) it)
  end.

(** *** Clients *)

(** The loop a consumer runs over an iterator:
    [while (it.HasNext()) rows.push_back(it.GetNext());]
    It gives the rows produced and the iterator it ends with, or [None]
    when [fuel] calls were not enough. *)
Fixpoint drain (fuel : nat) (ht : HashTable) (it : Iterator)
    : option (list TupleRowPtr * Iterator) :=
  if HasNext it then
    match fuel with
    | O => None
    | S fuel' =>
        let '(r, it') := GetNext ht it in
        (λ res, (r :: fst res, snd res)) <$> drain fuel' ht it'
    end
  else Some ([], it).

(** The number of nodes between the cursor and the end of the range. *)
Definition remaining (it : Iterator) : nat := (end_ it - i_ it)%nat.

(** [n] calls of [GetNext] in a row. *)
Fixpoint GetNext_times (n : nat) (ht : HashTable) (it : Iterator)
    : list TupleRowPtr * Iterator :=
  match n with
  | O => ([], it)
  | S n' =>
      let '(r, it') := GetNext ht it in
      let '(rs, it'') := GetNext_times n' ht it' in
      (r :: rs, it'')
  end.

(** The other loop a consumer runs, on what [GetNext] returns:
  [while ((r = it.GetNext()) != NULL) rows.push_back(r);]
  It gives the rows it collected and the iterator it ends with, or [None]
  when [fuel] calls were not enough. *)
Fixpoint drain_until_NULL (fuel : nat) (ht : HashTable) (it : Iterator)
    : option (list TupleRow * Iterator) :=
  match fuel with
  | O => None
  | S fuel' =>
      match GetNext ht it with
      | (None, it') => Some ([], it')
      | (Some r, it') =>
          (λ res, (r :: fst res, snd res)) <$> drain_until_NULL fuel' ht it'
      end
  end.

(** The build phase: one [Insert] per row, in order. *)
Definition insert_rows (rows : list TupleRow) (ht : HashTable) : HashTable :=
  foldl (λ ht r, Insert (Some r) ht) ht rows.

(** One call on a table: an [Insert] of a real row, or a [Scan]. *)
Inductive step : HashTable → HashTable → Prop :=
  | step_Insert ht r : step ht (Insert (Some r) ht)
  | step_Scan ht probe_row it : step ht (fst (Scan probe_row it ht)).

(** The states of a table: constructed, then any sequence of calls.
  [inserted ht rows] records the rows [Insert] was called with, the
  latest first. *)
Inductive inserted : HashTable → list TupleRow → Prop :=
  | inserted_new b1 b2 p d sn : inserted (HashTable_new b1 b2 p d sn) []
  | inserted_Insert ht rows r :
      inserted ht rows → inserted (Insert (Some r) ht) (r :: rows)
  | inserted_Scan ht rows probe_row it :
      inserted ht rows → inserted (fst (Scan probe_row it ht)) rows.

Definition reachable (ht : HashTable) : Prop := ∃ rows, inserted ht rows.

(** *** The equality contract, stated on key tuples *)

(** Two key values are equal when both are the same value, or both are
  null and the table stores nulls. *)
Definition value_eq (stores_nulls : bool) (x y : option Value) : Prop :=
  match x, y with
  | Some vx, Some vy => vx = vy
  | None, None => stores_nulls = true
  | _, _ => False
  end.

Definition key_tuple_eq (stores_nulls : bool) (k1 k2 : list (option Value)) : Prop :=
  Forall2 (value_eq stores_nulls) k1 k2.

(** The key tuple one side of a comparison stands for: the probe
  expressions over the row being probed for the sentinel, the given build
  expressions over the row itself otherwise. *)
Definition side_key (ht : HashTable) (build_exprs : list Expr) (x : TupleRowPtr)
    : list (option Value) :=
  match x with
  | None => eval_exprs (probe_exprs_ ht) (current_probe_row_ ht)
  | Some _ => eval_exprs build_exprs x
  end.

(** The sequential mix of a key tuple. *)
Definition hash_key (k : list (option Value)) : N :=
  fold_left hash_combine k hash_seed.

(** The key tuple of a probe row and of a stored entry. *)
Definition probe_key (ht : HashTable) (probe_row : TupleRow) : list (option Value) :=
  eval_exprs (probe_exprs_ ht) (Some probe_row).

Definition build_key (ht : HashTable) (entry : TupleRowPtr) : list (option Value) :=
  eval_exprs (build_exprs1_ ht) entry.

(** A stored entry matches a probe row when their key tuples are equal
  under the equality contract. *)
Definition key_matches (ht : HashTable) (probe_row : TupleRow) (entry : TupleRowPtr) : Prop :=
  key_tuple_eq (stores_nulls_ ht) (probe_key ht probe_row) (build_key ht entry).

(** The two copies of the build expressions compute the same key tuple. *)
Definition build_exprs_agree (ht : HashTable) : Prop :=
  ∀ r : TupleRow,
    eval_exprs (build_exprs1_ ht) (Some r) = eval_exprs (build_exprs2_ ht) (Some r).

(** A row the null policy lets in. *)
Definition accepted (ht : HashTable) (r : TupleRow) : Prop :=
  stores_nulls_ ht = true ∨ None ∉ build_key ht (Some r).

(** The stored entries, in iteration order. *)
Definition entries (ht : HashTable) : list TupleRowPtr :=
  HashSet_elements (hash_tbl_ ht).

(** The nodes an iterator still has before it: those at the positions
  from [i_] up to [end_]. *)
Definition range_entries (ht : HashTable) (it : Iterator) : list TupleRowPtr :=
  take (remaining it) (drop (i_ it) (entries ht)).

(** *** The representation invariant

  Every node is a real row; a group is filed under the hash of its key
  tuple, holds rows of one key tuple, a tuple that is equal to itself
  under the null policy; and no two groups share a key tuple. *)
Definition stored_key (ht : HashTable) (entry : TupleRowPtr) : list (option Value) :=
  eval_exprs (build_exprs2_ ht) entry.

Definition key_ok (stores_nulls : bool) (k : list (option Value)) : Prop :=
  stores_nulls = true ∨ None ∉ k.

Definition group_wf (ht : HashTable) (g : node_group TupleRowPtr) : Prop :=
  Forall is_Some (group_nodes g)
  ∧ group_hash g = hash_key (stored_key ht (group_first g))
  ∧ Forall (λ m, stored_key ht m = stored_key ht (group_first g)) (group_nodes g)
  ∧ key_ok (stores_nulls_ ht) (stored_key ht (group_first g)).

Definition wf (ht : HashTable) : Prop :=
  Forall (group_wf ht) (hash_tbl_ ht)
  ∧ NoDup (map (λ g, stored_key ht (group_first g)) (hash_tbl_ ht)).

(** ** Facts about the container *)
Section unordered_multiset_facts.
Context {K : Type} (hash : K → N) (pred : K → K → bool).
Implicit Types (s : HashSet K) (g : node_group K) (h : N) (k v : K).

Lemma HashSet_elements_cons g s :
  HashSet_elements (g :: s) = group_nodes g ++ HashSet_elements s.
Proof. reflexivity. Qed.

Lemma HashSet_size_cons g s :
  HashSet_size (g :: s) = (length (group_nodes g) + HashSet_size s)%nat.
Proof. unfold HashSet_size. by rewrite HashSet_elements_cons, length_app. Qed.

Lemma add_to_group_elements h v s s' :
  add_to_group pred h v s = Some s' →
  HashSet_elements s' ≡ₚ v :: HashSet_elements s.
Proof.
  revert s'. induction s as [|g s IH]; intros s' Hadd; simpl in Hadd; [done|].
  destruct (group_accepts pred h v g).
  - injection Hadd as <-. rewrite !HashSet_elements_cons.
    unfold group_nodes; simpl. rewrite <- (assoc_L (++)); simpl.
    transitivity (group_first g :: v :: group_rest g ++ HashSet_elements s).
    + constructor. symmetry. apply Permutation_middle.
    + apply perm_swap.
  - destruct (add_to_group pred h v s) as [s''|] eqn:Hs; [|done].
    injection Hadd as <-. rewrite !HashSet_elements_cons.
    rewrite (IH s'' eq_refl). symmetry. apply Permutation_middle.
Qed.

Lemma filter_Forall_all {A} (P : A → Prop) `{!∀ x, Decision (P x)} (l : list A) :
  Forall P l → filter P l = l.
Proof.
  induction 1 as [|x l HP _ IH]; [done|].
  by rewrite filter_cons_True, IH.
Qed.

Lemma filter_Forall_none {A} (P : A → Prop) `{!∀ x, Decision (P x)} (l : list A) :
  Forall (λ x, ¬ P x) l → filter P l = [].
Proof.
  induction 1 as [|x l HP _ IH]; [done|].
  by rewrite filter_cons_False.
Qed.

(** [insert] adds exactly the node it is given. *)
Lemma HashSet_insert_elements v s :
  HashSet_elements (HashSet_insert hash pred v s) ≡ₚ v :: HashSet_elements s.
Proof.
  unfold HashSet_insert.
  destruct (add_to_group pred (hash v) v s) as [s'|] eqn:Hadd.
  - by eapply add_to_group_elements.
  - reflexivity.
Qed.

Lemma HashSet_insert_size v s :
  HashSet_size (HashSet_insert hash pred v s) = S (HashSet_size s).
Proof. unfold HashSet_size. by rewrite HashSet_insert_elements. Qed.

(** [equal_range] returns a range of the table. *)
Lemma equal_range_from_bounds h k s pos :
  (pos ≤ (equal_range_from pred h k s pos).1
   ≤ (equal_range_from pred h k s pos).2)%nat
  ∧ ((equal_range_from pred h k s pos).2 ≤ pos + HashSet_size s)%nat.
Proof.
  revert pos. induction s as [|g s IH]; intros pos; simpl.
  - unfold HashSet_size; simpl. lia.
  - rewrite HashSet_size_cons. destruct (group_accepts pred h k g); simpl.
    + lia.
    + specialize (IH (pos + S (length (group_rest g)))%nat). simpl in IH. lia.
Qed.

(** When whole groups stand or fall with the key and at most one group
  is accepted, [equal_range] is the run of the nodes equivalent to it. *)
Lemma equal_range_from_filter h k s (pre : list K) :
  (∀ g, g ∈ s → group_accepts pred h k g = true →
        Forall (λ m, pred k m = true) (group_nodes g)) →
  (∀ g, g ∈ s → group_accepts pred h k g = false →
        Forall (λ m, pred k m ≠ true) (group_nodes g)) →
  (∀ l1 g l2, s = l1 ++ g :: l2 → group_accepts pred h k g = true →
        Forall (λ g', group_accepts pred h k g' = false) l2) →
  let r := equal_range_from pred h k s (length pre) in
  take (r.2 - r.1) (drop r.1 (pre ++ HashSet_elements s))
  = filter (λ m, pred k m = true) (HashSet_elements s).
Proof.
  revert pre. induction s as [|g s IH]; intros pre Hyes Hno Hone; simpl.
  - by rewrite Nat.sub_diag.
  - rewrite HashSet_elements_cons, filter_app.
    destruct (group_accepts pred h k g) eqn:Hacc; simpl.
    + rewrite drop_app_length.
      replace (length pre + S (length (group_rest g)) - length pre)%nat
        with (length (group_nodes g)) by (simpl; lia).
      change (group_first g :: group_rest g ++ HashSet_elements s)
        with (group_nodes g ++ HashSet_elements s).
      rewrite take_app_length.
      assert (filter (λ m, pred k m = true) (HashSet_elements s) = []) as ->.
      { apply filter_Forall_none. unfold HashSet_elements.
        apply Forall_concat, Forall_fmap, Forall_forall. intros g' Hg'.
        apply (Hno g'); [apply elem_of_cons; by right|].
        specialize (Hone [] g s eq_refl Hacc).
        by eapply Forall_forall in Hone. }
      rewrite app_nil_r. symmetry. apply filter_Forall_all, Hyes; [apply elem_of_cons; by left|done].
    + assert (filter (λ m, pred k m = true) (group_nodes g) = []) as ->.
      { apply filter_Forall_none, Hno; [apply elem_of_cons; by left|done]. }
      simpl. specialize (IH (pre ++ group_nodes g)).
      rewrite length_app in IH. simpl in IH.
      rewrite <- (assoc_L (++)) in IH. apply IH.
      * intros g' Hg'. apply Hyes. apply elem_of_cons; by right.
      * intros g' Hg'. apply Hno. apply elem_of_cons; by right.
      * intros l1 g' l2 -> Hg'. by apply (Hone (g :: l1) g' l2).
Qed.
End unordered_multiset_facts.

(** ** Facts about the hash and equality policy *)

Lemma hash_values_hash_key exprs row seed :
  hash_values exprs row seed = fold_left hash_combine (eval_exprs exprs row) seed.
Proof. revert seed. induction exprs as [|e exprs IH]; intros seed; simpl; [done|apply IH]. Qed.

Lemma any_null_spec exprs row :
  any_null exprs row = true ↔ None ∈ eval_exprs exprs row.
Proof.
  induction exprs as [|e exprs IH]; simpl.
  - split; [done|]. by intros ?%elem_of_nil.
  - rewrite elem_of_cons. destruct (GetValue e row) as [v|]; [|by split; [left|]].
    rewrite IH. split; [by right|]. by intros [?|?].
Qed.

Lemma equal_values_spec sn a_exprs a_row b_exprs b_row :
  equal_values sn a_exprs a_row b_exprs b_row = true
  ↔ key_tuple_eq sn (eval_exprs a_exprs a_row) (eval_exprs b_exprs b_row).
Proof.
  unfold key_tuple_eq. revert b_exprs.
  induction a_exprs as [|ea a_exprs IH]; intros [|eb b_exprs]; simpl.
  - split; [constructor|done].
  - split; [done|]. inversion 1.
  - split; [done|]. inversion 1.
  - destruct (GetValue ea a_row) as [va|] eqn:Ha, (GetValue eb b_row) as [vb|] eqn:Hb.
    + destruct (decide (va = vb)) as [->|Hne].
      * rewrite IH. split; [by constructor|]. by inversion 1.
      * split; [done|]. inversion 1; by simplify_eq/=.
    + split; [done|]. inversion 1; by simplify_eq/=.
    + split; [done|]. inversion 1; by simplify_eq/=.
    + destruct sn.
      * rewrite IH. split; [by constructor|]. by inversion 1.
      * split; [done|]. inversion 1; by simplify_eq/=.
Qed.

Lemma key_tuple_eq_eq sn k1 k2 : key_tuple_eq sn k1 k2 → k1 = k2.
Proof.
  induction 1 as [|x y k1 k2 Hxy _ IH]; [done|]. subst.
  destruct x, y; simpl in Hxy; by subst.
Qed.

Lemma key_tuple_eq_ok sn k1 k2 : key_tuple_eq sn k1 k2 → key_ok sn k1.
Proof.
  intros H. destruct sn; [by left|]. right.
  induction H as [|x y k1 k2 Hxy _ IH]; [by intros ?%elem_of_nil|].
  intros [<-|?]%elem_of_cons; [|done]. by destruct y.
Qed.

Lemma key_tuple_eq_refl sn k : key_ok sn k → key_tuple_eq sn k k.
Proof.
  intros Hok. induction k as [|x k IH]; [constructor|].
  constructor.
  - destruct x; simpl; [done|]. destruct Hok as [?|Hk]; [done|].
    destruct Hk. by left.
  - apply IH. destruct Hok as [?|Hk]; [by left|]. right.
    intros ?. apply Hk. by right.
Qed.

Lemma key_tuple_eq_iff sn k1 k2 : key_tuple_eq sn k1 k2 ↔ k1 = k2 ∧ key_ok sn k1.
Proof.
  split.
  - eauto using key_tuple_eq_eq, key_tuple_eq_ok.
  - intros [<- ?]. by apply key_tuple_eq_refl.
Qed.

#[global] Instance value_eq_dec sn x y : Decision (value_eq sn x y).
Proof. destruct x, y; simpl; apply _. Defined.

#[global] Instance key_tuple_eq_dec sn k1 k2 : Decision (key_tuple_eq sn k1 k2).
Proof. unfold key_tuple_eq. apply _. Defined.

#[global] Instance key_matches_dec ht probe_row entry :
  Decision (key_matches ht probe_row entry).
Proof. unfold key_matches. apply _. Defined.

(** ** The invariant is kept *)

Lemma HashFn_stored ht r :
  HashFn ht (Some r) = hash_key (stored_key ht (Some r)).
Proof. apply hash_values_hash_key. Qed.

Lemma HashFn_sentinel ht :
  HashFn ht NULL = hash_key (eval_exprs (probe_exprs_ ht) (current_probe_row_ ht)).
Proof. apply hash_values_hash_key. Qed.

Lemma EqualsFn_spec ht a b :
  EqualsFn ht a b = true
  ↔ key_tuple_eq (stores_nulls_ ht)
      (side_key ht (build_exprs1_ ht) a) (side_key ht (build_exprs2_ ht) b).
Proof. unfold EqualsFn. rewrite equal_values_spec. by destruct a, b. Qed.

Lemma accepted_key_ok ht r :
  build_exprs_agree ht → accepted ht r →
  key_ok (stores_nulls_ ht) (stored_key ht (Some r)).
Proof. intros Hagree Hacc. unfold stored_key. rewrite <- Hagree. exact Hacc. Qed.

Lemma Insert_rejected ht r :
  ¬ accepted ht r → Insert (Some r) ht = ht.
Proof.
  intros Hrej. unfold Insert, HasNulls.
  destruct (stores_nulls_ ht) eqn:Hsn; simpl.
  - destruct Hrej. by left.
  - destruct (any_null (build_exprs1_ ht) (Some r)) eqn:Hnull; [done|].
    destruct Hrej. right. unfold build_key. by rewrite <- any_null_spec, Hnull.
Qed.

Lemma Insert_accepted ht r :
  accepted ht r →
  Insert (Some r) ht
  = set_hash_tbl (HashSet_insert (HashFn ht) (EqualsFn ht) (Some r) (hash_tbl_ ht)) ht.
Proof.
  intros Hacc. unfold Insert, HasNulls.
  destruct (stores_nulls_ ht) eqn:Hsn; simpl; [done|].
  destruct (any_null (build_exprs1_ ht) (Some r)) eqn:Hnull; [|done].
  destruct Hacc as [?|Hacc]; [congruence|]. destruct Hacc. by apply any_null_spec.
Qed.

Lemma accepted_rejects ht r : accepted ht r ↔ rejects ht (Some r) = false.
Proof.
  unfold accepted, rejects, HasNulls, build_key.
  rewrite <- any_null_spec.
  destruct (stores_nulls_ ht), (any_null (build_exprs1_ ht) (Some r)); simpl.
  - split; [done|by left].
  - split; [done|by left].
  - split; [by intros [?|?]|done].
  - split; [done|]. intros _. by right.
Qed.

#[global] Instance accepted_dec ht r : Decision (accepted ht r).
Proof. unfold accepted. apply _. Defined.

(** While a row is inserted, a group accepts it exactly when the group
  holds its key tuple. *)
Lemma group_accepts_build ht r g :
  build_exprs_agree ht → accepted ht r → group_wf ht g →
  group_accepts (EqualsFn ht) (HashFn ht (Some r)) (Some r) g = true
  ↔ stored_key ht (Some r) = stored_key ht (group_first g).
Proof.
  intros Hagree Hacc (Hsome & Hhash & _ & _).
  unfold group_accepts. rewrite andb_true_iff, N.eqb_eq, EqualsFn_spec, key_tuple_eq_iff.
  apply Forall_cons_1 in Hsome as [[f Hf] _]. rewrite Hf in *. unfold side_key.
  rewrite Hhash, HashFn_stored, (Hagree r). fold (stored_key ht (Some r)).
  fold (stored_key ht (Some f)). split.
  - by intros (_ & ? & _).
  - intros Heq. rewrite Heq. split_and!; try done.
    rewrite <- Heq. by apply accepted_key_ok.
Qed.

Lemma add_to_group_wf ht r s :
  build_exprs_agree ht → accepted ht r → Forall (group_wf ht) s →
  match add_to_group (EqualsFn ht) (HashFn ht (Some r)) (Some r) s with
  | Some s' =>
      Forall (group_wf ht) s'
      ∧ map (λ g, stored_key ht (group_first g)) s'
        = map (λ g, stored_key ht (group_first g)) s
  | None => stored_key ht (Some r) ∉ map (λ g, stored_key ht (group_first g)) s
  end.
Proof.
  intros Hagree Hacc. induction 1 as [|g s Hg Hs IH]; simpl.
  - by intros ?%elem_of_nil.
  - pose proof (group_accepts_build ht r g Hagree Hacc Hg) as Hiff.
    destruct (group_accepts _ _ _ g) eqn:Haccepts.
    + split; [|done]. constructor; [|done].
      destruct Hg as (Hsome & Hhash & Hkeys & Hok).
      assert (stored_key ht (Some r) = stored_key ht (group_first g)) as Hkey
        by by apply Hiff.
      unfold group_wf, group_nodes in *; simpl. split_and!; try done.
      * rewrite app_comm_cons. apply Forall_app; split; [done|]. by repeat constructor.
      * rewrite app_comm_cons. apply Forall_app; split; [done|]. by repeat constructor.
    + destruct (add_to_group _ _ _ s) as [s'|]; simpl.
      * destruct IH as [IH1 IH2]. split; [by constructor|]. by rewrite IH2.
      * intros [Heq|?]%elem_of_cons; [|done].
        apply Hiff in Heq. congruence.
Qed.

Lemma wf_set_hash_tbl s ht :
  wf (set_hash_tbl s ht)
  ↔ Forall (group_wf ht) s ∧ NoDup (map (λ g, stored_key ht (group_first g)) s).
Proof. reflexivity. Qed.

Lemma Insert_wf ht r :
  build_exprs_agree ht → wf ht → wf (Insert (Some r) ht).
Proof.
  intros Hagree [Hgroups Hnodup].
  destruct (decide (accepted ht r)) as [Hacc|Hrej]; [|by rewrite Insert_rejected].
  rewrite Insert_accepted by done.
  pose proof (add_to_group_wf ht r _ Hagree Hacc Hgroups) as Hadd.
  rewrite wf_set_hash_tbl. unfold HashSet_insert.
  destruct (add_to_group _ _ _ (hash_tbl_ ht)) as [s'|].
  - destruct Hadd as [Hwf Hkeys]. split; [exact Hwf|]. by rewrite Hkeys.
  - split.
    + constructor; [|exact Hgroups]. unfold group_wf, group_nodes.
      cbn [group_first group_rest group_hash]. split_and!.
      * by repeat constructor.
      * apply HashFn_stored.
      * by repeat constructor.
      * by apply accepted_key_ok.
    + rewrite map_cons. by constructor.
Qed.

Lemma Scan_table probe_row it ht :
  (Scan probe_row it ht).1 = set_current_probe_row probe_row ht.
Proof. by destruct probe_row. Qed.

Lemma Scan_wf probe_row it ht : wf ht → wf (Scan probe_row it ht).1.
Proof. by rewrite Scan_table. Qed.

Lemma step_fields ht ht' :
  step ht ht' →
  build_exprs1_ ht' = build_exprs1_ ht ∧ build_exprs2_ ht' = build_exprs2_ ht
  ∧ probe_exprs_ ht' = probe_exprs_ ht ∧ stores_nulls_ ht' = stores_nulls_ ht.
Proof.
  destruct 1 as [ht r|ht probe_row it].
  - unfold Insert. by destruct (_ && _).
  - by rewrite Scan_table.
Qed.

Lemma step_agree ht ht' : step ht ht' → build_exprs_agree ht' → build_exprs_agree ht.
Proof.
  intros (H1 & H2 & _)%step_fields Hagree r.
  rewrite <- H1, <- H2. apply Hagree.
Qed.

Lemma step_wf ht ht' : build_exprs_agree ht → step ht ht' → wf ht → wf ht'.
Proof.
  intros Hagree Hstep Hwf. destruct Hstep as [ht r|ht probe_row it].
  - by apply Insert_wf.
  - by apply Scan_wf.
Qed.

Lemma reachable_new b1 b2 p d sn : reachable (HashTable_new b1 b2 p d sn).
Proof. exists []. constructor. Qed.

Lemma reachable_step ht ht' : reachable ht → step ht ht' → reachable ht'.
Proof.
  intros [rows Hrows] Hstep. destruct Hstep as [ht r|ht probe_row it].
  - exists (r :: rows). by apply inserted_Insert.
  - exists rows. by apply inserted_Scan.
Qed.

Lemma reachable_steps ht ht' : reachable ht → rtc step ht ht' → reachable ht'.
Proof. induction 2; eauto using reachable_step. Qed.

Lemma reachable_ind_step (P : HashTable → Prop) :
  (∀ b1 b2 p d sn, P (HashTable_new b1 b2 p d sn)) →
  (∀ ht ht', reachable ht → P ht → step ht ht' → P ht') →
  ∀ ht, reachable ht → P ht.
Proof.
  intros Hnew Hstep ht [rows Hrows].
  induction Hrows as [| ht rows r Hrows IH | ht rows probe_row it Hrows IH].
  - apply Hnew.
  - eapply Hstep; [by exists rows|done|constructor].
  - eapply Hstep; [by exists rows|done|constructor].
Qed.

Lemma reachable_wf ht : reachable ht → build_exprs_agree ht → wf ht.
Proof.
  intros Hreach. induction Hreach as [b1 b2 p d sn|ht ht' _ IH Hstep]
    using reachable_ind_step; intros Hagree.
  - split; simpl; constructor.
  - eapply step_wf; [|done|]; eauto using step_agree.
Qed.

(** ** Iterators *)

Lemma entries_Scan probe_row it ht : entries (Scan probe_row it ht).1 = entries ht.
Proof. by rewrite Scan_table. Qed.

(** An iterator over a range of the table hands out the nodes of the
  range, in order, and ends exhausted. *)
Lemma drain_range fuel ht it :
  (i_ it ≤ end_ it)%nat → (end_ it ≤ length (entries ht))%nat →
  (remaining it ≤ fuel)%nat →
  drain fuel ht it = Some (range_entries ht it, SkipToEnd it).
Proof.
  revert it. induction fuel as [|fuel IH]; intros [i e] Hie Hlen Hfuel;
    unfold range_entries, remaining, SkipToEnd in *; cbn [i_ end_ drain] in *;
    unfold HasNext; cbn [i_ end_].
  - assert (i = e) as -> by lia. by rewrite Nat.eqb_refl, Nat.sub_diag.
  - destruct (Nat.eqb_spec i e) as [->|Hne]; cbn [negb].
    { by rewrite Nat.sub_diag. }
    unfold GetNext, HasNext; cbn [i_ end_].
    destruct (Nat.eqb_spec i e) as [|_]; [done|]. cbn [negb].
    rewrite (IH (mkIterator (S i) e)) by (cbn [i_ end_]; lia).
    cbn [i_ end_ fmap option_fmap option_map fst snd].
    destruct (lookup_lt_is_Some_2 (entries ht) i) as [x Hx]; [lia|].
    unfold deref. fold (entries ht). rewrite Hx. cbn [default].
    rewrite (drop_S _ _ _ Hx).
    by replace (e - i)%nat with (S (e - S i)) by lia.
Qed.

(** The range [Scan] hands out lies within the table. *)
Lemma Scan_range probe_row it ht :
  (i_ (Scan probe_row it ht).2 ≤ end_ (Scan probe_row it ht).2)%nat
  ∧ (end_ (Scan probe_row it ht).2 ≤ length (entries ht))%nat.
Proof.
  destruct probe_row as [r|]; simpl.
  - unfold HashSet_equal_range.
    pose proof (equal_range_from_bounds
      (EqualsFn (set_current_probe_row (Some r) ht))
      (HashFn (set_current_probe_row (Some r) ht) NULL) NULL (hash_tbl_ ht) 0) as Hb.
    unfold entries, HashSet_size in *. lia.
  - unfold HashSet_begin, HashSet_end, HashSet_size, entries. lia.
Qed.

Lemma drain_Scan probe_row it ht :
  drain (remaining (Scan probe_row it ht).2) (Scan probe_row it ht).1 (Scan probe_row it ht).2
  = Some (range_entries ht (Scan probe_row it ht).2, SkipToEnd (Scan probe_row it ht).2).
Proof.
  destruct (Scan_range probe_row it ht) as [Hie Hlen].
  rewrite drain_range; rewrite ?entries_Scan; try done.
  unfold range_entries. by rewrite entries_Scan.
Qed.

Lemma range_entries_subseteq ht it : range_entries ht it ⊆ entries ht.
Proof.
  unfold range_entries. intros x Hx.
  by eapply subseteq_drop, subseteq_take.
Qed.

(** More fuel gives the same result. *)
Lemma drain_fuel_mono fuel fuel' ht it res :
  (fuel ≤ fuel')%nat → drain fuel ht it = Some res → drain fuel' ht it = Some res.
Proof.
  revert fuel' it res. induction fuel as [|fuel IH]; intros fuel' it res Hle; simpl.
  - destruct fuel'; simpl; by destruct (HasNext it).
  - destruct fuel' as [|fuel']; [lia|]. simpl.
    destruct (HasNext it); [|done].
    destruct (GetNext ht it) as [r it'].
    destruct (drain fuel ht it') as [res'|] eqn:Hd; [|done].
    by rewrite (IH fuel' it' res') by (done || lia).
Qed.

Lemma GetNext_exhausted ht it : HasNext it = false → GetNext ht it = (NULL, it).
Proof. unfold GetNext. by intros ->. Qed.

Lemma HasNext_SkipToEnd it : HasNext (SkipToEnd it) = false.
Proof. unfold HasNext, SkipToEnd; simpl. by rewrite Nat.eqb_refl. Qed.

(** ** Probing *)

Lemma filter_ext_Forall {A} (P Q : A → Prop)
    `{!∀ x, Decision (P x)} `{!∀ x, Decision (Q x)} (l : list A) :
  Forall (λ x, P x ↔ Q x) l → filter P l = filter Q l.
Proof.
  induction 1 as [|x l HPQ _ IH]; [done|].
  destruct (decide (P x)) as [HP|HP].
  - rewrite !filter_cons_True by tauto. by rewrite IH.
  - rewrite !filter_cons_False by tauto. done.
Qed.

Lemma wf_entries_Some ht : wf ht → Forall is_Some (entries ht).
Proof.
  intros [Hgroups _]. unfold entries, HashSet_elements.
  apply Forall_concat, Forall_fmap. eapply Forall_impl; [exact Hgroups|].
  by intros g (? & _).
Qed.

Section probing.
Variables (ht : HashTable) (probe_row : TupleRow).
Let ht' := set_current_probe_row (Some probe_row) ht.

Lemma EqualsFn_probe m :
  is_Some m →
  EqualsFn ht' NULL m = true
  ↔ key_tuple_eq (stores_nulls_ ht) (probe_key ht probe_row) (stored_key ht m).
Proof. intros [x ->]. by rewrite EqualsFn_spec. Qed.

Lemma group_accepts_probe g :
  group_wf ht g →
  group_accepts (EqualsFn ht') (HashFn ht' NULL) NULL g = true
  ↔ key_tuple_eq (stores_nulls_ ht) (probe_key ht probe_row)
      (stored_key ht (group_first g)).
Proof.
  intros (Hsome & Hhash & _ & _). apply Forall_cons_1 in Hsome as [Hsome _].
  unfold group_accepts. rewrite andb_true_iff, N.eqb_eq, EqualsFn_probe by done.
  rewrite Hhash, HashFn_sentinel.
  change (eval_exprs (probe_exprs_ ht') (current_probe_row_ ht'))
    with (probe_key ht probe_row).
  split; [by intros [_ ?]|]. intros Heq. split; [|done].
  by rewrite (key_tuple_eq_eq _ _ _ Heq).
Qed.

(** The range a probe is handed holds the stored entries whose key tuple
  the comparison accepts, and nothing else. *)
Lemma Scan_probe_EqualsFn it :
  wf ht →
  range_entries ht (Scan (Some probe_row) it ht).2
  = filter (λ m, EqualsFn ht' NULL m = true) (entries ht).
Proof.
  intros [Hgroups Hnodup]. rewrite Forall_forall in Hgroups.
  unfold range_entries, remaining, Scan, Reset, HashSet_equal_range.
  cbn [fst snd i_ end_]. fold ht'.
  apply (equal_range_from_filter (EqualsFn ht') (HashFn ht' NULL) NULL (hash_tbl_ ht) []).
  - intros g Hg Hacc. pose proof (Hgroups g Hg) as Hwfg.
    apply group_accepts_probe in Hacc; [|done].
    destruct Hwfg as (Hs & _ & Hkeys & _).
    rewrite Forall_forall in Hs, Hkeys. apply Forall_forall.
    intros m Hm. apply EqualsFn_probe; [by apply Hs|].
    by rewrite (Hkeys m Hm).
  - intros g Hg Hacc. pose proof (Hgroups g Hg) as Hwfg.
    pose proof Hwfg as (Hs & _ & Hkeys & _).
    rewrite Forall_forall in Hs, Hkeys. apply Forall_forall.
    intros m Hm Heq. apply EqualsFn_probe in Heq; [|by apply Hs].
    rewrite (Hkeys m Hm) in Heq. apply group_accepts_probe in Heq; [|done].
    congruence.
  - intros l1 g l2 Heq Hacc. rewrite Heq in Hnodup, Hgroups.
    rewrite map_app, map_cons in Hnodup.
    apply NoDup_app in Hnodup as (_ & _ & Hnodup).
    apply NoDup_cons in Hnodup as [Hnotin _].
    apply Forall_forall. intros g' Hg'.
    destruct (group_accepts _ _ _ g') eqn:Hacc'; [|done].
    destruct Hnotin.
    apply group_accepts_probe in Hacc; [|apply Hgroups, elem_of_app; right; by left].
    apply group_accepts_probe in Hacc';
      [|apply Hgroups, elem_of_app; right; by right].
    rewrite <- (key_tuple_eq_eq _ _ _ Hacc), (key_tuple_eq_eq _ _ _ Hacc').
    by apply (list_elem_of_fmap_2 (λ g, stored_key ht (group_first g))).
Qed.

Lemma EqualsFn_probe_matches :
  wf ht → build_exprs_agree ht →
  Forall (λ m, EqualsFn ht' NULL m = true ↔ key_matches ht probe_row m) (entries ht).
Proof.
  intros Hwf Hagree. eapply Forall_impl; [by apply wf_entries_Some|].
  intros m Hm. rewrite EqualsFn_probe by done. destruct Hm as [x ->].
  unfold key_matches, build_key, stored_key. by rewrite Hagree.
Qed.
End probing.

Lemma Scan_probe_matching ht probe_row it :
  reachable ht → build_exprs_agree ht →
  range_entries ht (Scan (Some probe_row) it ht).2
  = filter (key_matches ht probe_row) (entries ht).
Proof.
  intros Hreach Hagree. pose proof (reachable_wf ht Hreach Hagree) as Hwf.
  rewrite Scan_probe_EqualsFn by done.
  by apply filter_ext_Forall, EqualsFn_probe_matches.
Qed.

(** ** What the table holds *)

Lemma steps_fields ht ht' :
  rtc step ht ht' →
  build_exprs1_ ht' = build_exprs1_ ht ∧ build_exprs2_ ht' = build_exprs2_ ht
  ∧ probe_exprs_ ht' = probe_exprs_ ht ∧ stores_nulls_ ht' = stores_nulls_ ht.
Proof.
  induction 1 as [|ht ht1 ht' Hstep _ IH]; [done|].
  destruct IH as (-> & -> & -> & ->). by apply step_fields.
Qed.

Lemma steps_accepted ht ht' r : rtc step ht ht' → accepted ht' r ↔ accepted ht r.
Proof.
  intros (H1 & _ & _ & Hsn)%steps_fields. unfold accepted, build_key.
  by rewrite H1, Hsn.
Qed.

Lemma steps_key_matches ht ht' probe_row e :
  rtc step ht ht' → key_matches ht' probe_row e ↔ key_matches ht probe_row e.
Proof.
  intros (H1 & _ & Hp & Hsn)%steps_fields.
  unfold key_matches, probe_key, build_key. by rewrite H1, Hp, Hsn.
Qed.

Lemma steps_agree ht ht' : rtc step ht ht' → build_exprs_agree ht → build_exprs_agree ht'.
Proof.
  intros (H1 & H2 & _)%steps_fields Hagree r. rewrite H1, H2. apply Hagree.
Qed.

Lemma key_matches_accepted ht probe_row r :
  key_matches ht probe_row (Some r) → accepted ht r.
Proof.
  intros [Heq Hok]%key_tuple_eq_iff. unfold accepted. by rewrite <- Heq.
Qed.

Lemma entries_Insert_accepted ht r :
  accepted ht r → entries (Insert (Some r) ht) ≡ₚ Some r :: entries ht.
Proof.
  intros Hacc. rewrite Insert_accepted by done. apply HashSet_insert_elements.
Qed.

Lemma entries_Insert ht r :
  entries (Insert (Some r) ht) ≡ₚ (Some <$> filter (accepted ht) [r]) ++ entries ht.
Proof.
  destruct (decide (accepted ht r)) as [Hacc|Hrej].
  - rewrite filter_cons_True by done. by apply entries_Insert_accepted.
  - rewrite filter_cons_False by done. by rewrite Insert_rejected.
Qed.

(** The table holds the rows it was given and let in, each once. *)
Lemma inserted_entries ht rows :
  inserted ht rows → entries ht ≡ₚ Some <$> filter (accepted ht) rows.
Proof.
  induction 1 as [| ht rows r Hrows IH | ht rows probe_row it Hrows IH].
  - done.
  - rewrite entries_Insert, IH.
    rewrite (list_filter_iff (accepted (Insert (Some r) ht)) (accepted ht))
      by (intros x; apply steps_accepted, rtc_once; constructor).
    change (r :: rows) with ([r] ++ rows).
    by rewrite filter_app, fmap_app.
  - rewrite entries_Scan, IH.
    by rewrite (list_filter_iff (accepted (Scan probe_row it ht).1) (accepted ht))
      by (intros x; apply steps_accepted, rtc_once; constructor).
Qed.

Lemma reachable_entries_accepted ht x :
  reachable ht → Some x ∈ entries ht → accepted ht x.
Proof.
  intros [rows Hrows] Hx. rewrite (inserted_entries ht rows Hrows) in Hx.
  apply list_elem_of_fmap in Hx as (y & [= ->] & Hy).
  by apply list_elem_of_filter in Hy as [? _].
Qed.

Lemma insert_rows_steps rows ht : rtc step ht (insert_rows rows ht).
Proof.
  revert ht. induction rows as [|r rows IH]; intros ht; [done|].
  eapply rtc_l; [apply (step_Insert ht r)|apply IH].
Qed.

Lemma entries_insert_rows rows ht :
  entries (insert_rows rows ht) ≡ₚ (Some <$> filter (accepted ht) rows) ++ entries ht.
Proof.
  revert ht. induction rows as [|r rows IH]; intros ht; [done|].
  change (insert_rows (r :: rows) ht) with (insert_rows rows (Insert (Some r) ht)).
  rewrite IH, entries_Insert.
  rewrite (list_filter_iff (accepted (Insert (Some r) ht)) (accepted ht))
    by (intros x; apply steps_accepted, rtc_once; constructor).
  change (r :: rows) with ([r] ++ rows).
  rewrite filter_app, fmap_app, <- !(assoc_L (++)).
  apply Permutation_app_swap_app.
Qed.

(** ** The value [size] reports *)

Lemma int_of_size_t_small n : 0 ≤ n ≤ INT_MAX → int_of_size_t n = n.
Proof.
  unfold INT_MAX, int_of_size_t. intros Hn.
  rewrite Z.mod_small by lia. destruct (Z.ltb_spec n (2 ^ 31)); lia.
Qed.

Lemma size_small ht :
  Z.of_nat (length (entries ht)) ≤ INT_MAX → size ht = Z.of_nat (length (entries ht)).
Proof. intros Hle. unfold size. apply int_of_size_t_small. unfold entries, HashSet_size in *. lia. Qed.

(** ** What a drained iterator produced *)

Lemma drain_Scan_inv fuel probe_row it ht res :
  drain fuel (Scan probe_row it ht).1 (Scan probe_row it ht).2 = Some res →
  res = (range_entries ht (Scan probe_row it ht).2, SkipToEnd (Scan probe_row it ht).2).
Proof.
  intros Hres. pose proof (drain_Scan probe_row it ht) as Hres'.
  apply (drain_fuel_mono _ (fuel `max` remaining (Scan probe_row it ht).2)) in Hres; [|lia].
  apply (drain_fuel_mono _ (fuel `max` remaining (Scan probe_row it ht).2)) in Hres'; [|lia].
  congruence.
Qed.

Lemma GetNext_times_exhausted n ht it :
  HasNext it = false → GetNext_times n ht it = (replicate n NULL, it).
Proof.
  intros Hend. induction n as [|n IH]; simpl; [done|].
  by rewrite GetNext_exhausted, IH.
Qed.

Lemma Scan_full_entries it ht : range_entries ht (Scan NULL it ht).2 = entries ht.
Proof.
  unfold range_entries, remaining, Scan, Reset, HashSet_begin, HashSet_end, HashSet_size.
  cbn [fst snd i_ end_]. rewrite Nat.sub_0_r, drop_0. fold (entries ht).
  apply firstn_all.
Qed.

(** ** The properties of the table *)

(** C1: on every state of a table whose two copies of the build
  expressions agree, a [Scan] with a real probe row hands out, through the
  iterator, exactly the stored entries whose build key tuple equals the
  probe row's key tuple under the equality contract: every such entry is
  produced (as often as it is stored), and no entry of another key tuple
  is. *)
Theorem Scan_probe_yields_equal_keys ht probe_row it :
  reachable ht → build_exprs_agree ht →
  let sc := Scan (Some probe_row) it ht in
  ∃ produced,
    drain (remaining sc.2) sc.1 sc.2 = Some (produced, SkipToEnd sc.2)
    ∧ produced = filter (λ e, EqualsFn sc.1 NULL e = true) (entries ht)
    ∧ produced = filter (key_matches ht probe_row) (entries ht)
    ∧ (∀ e, e ∈ entries ht → key_matches ht probe_row e → e ∈ produced)
    ∧ (∀ e, e ∈ produced → e ∈ entries ht ∧ key_matches ht probe_row e).
Proof.
  intros Hreach Hagree sc. exists (range_entries ht sc.2). split; [apply drain_Scan|].
  subst sc. split.
  { rewrite Scan_table. apply Scan_probe_EqualsFn. by apply reachable_wf. }
  rewrite Scan_probe_matching by done. split; [done|]. split.
  - intros e He Hm. by apply list_elem_of_filter.
  - by intros e [? ?]%list_elem_of_filter.
Qed.

(** C2 (as amended): a [Scan] with the sentinel hands out every stored
  entry exactly once, in iteration order, whatever the keys: these are the
  rows [Insert] was given and let in; their number is what [size] reports
  as long as it fits an [int]. *)
Theorem Scan_sentinel_yields_all ht rows it :
  inserted ht rows →
  let sc := Scan NULL it ht in
  ∃ produced,
    drain (remaining sc.2) sc.1 sc.2 = Some (produced, SkipToEnd sc.2)
    ∧ produced = entries ht
    ∧ produced ≡ₚ Some <$> filter (λ r, rejects ht (Some r) = false) rows
    ∧ (Z.of_nat (length produced) ≤ INT_MAX → size ht = Z.of_nat (length produced)).
Proof.
  intros Hrows sc. exists (entries ht). split_and!.
  - subst sc. by rewrite drain_Scan, Scan_full_entries.
  - done.
  - rewrite <- (list_filter_iff (accepted ht) (λ r, rejects ht (Some r) = false))
      by apply accepted_rejects.
    by apply inserted_entries.
  - apply size_small.
Qed.

(** C3: when the table does not store nulls, [Insert] of a row whose key
  tuple holds a null returns the table as it was, so [size] is unchanged;
  and whatever is called on the table afterwards, no scan hands that row
  out. *)
Theorem Insert_rejects_null_key ht r :
  reachable ht → stores_nulls_ ht = false → None ∈ build_key ht (Some r) →
  Insert (Some r) ht = ht
  ∧ size (Insert (Some r) ht) = size ht
  ∧ ∀ ht' probe_row it fuel produced it',
      rtc step (Insert (Some r) ht) ht' →
      drain fuel (Scan probe_row it ht').1 (Scan probe_row it ht').2 = Some (produced, it') →
      Some r ∉ produced.
Proof.
  intros Hreach Hsn Hnull.
  assert (¬ accepted ht r) as Hrej by (intros [?|?]; [congruence|done]).
  rewrite Insert_rejected by done. split_and!; [done..|].
  intros ht' probe_row it fuel produced it' Hsteps Hdrain Hin.
  apply drain_Scan_inv in Hdrain as [= -> _].
  apply range_entries_subseteq in Hin.
  apply Hrej, (steps_accepted ht ht' r Hsteps).
  apply reachable_entries_accepted; [|done]. by eapply reachable_steps.
Qed.

(** C4 (as amended): [Insert] of a row the null policy lets in adds
  exactly that one entry, whether or not its key tuple is already present,
  and [size] grows by one as long as the new count fits an [int]; after
  [Insert]ing N rows whose key tuple equals that of a probe row, a [Scan]
  with that probe row hands out N entries more than it did before (N when
  the table held none of that key). *)
Theorem Insert_adds_one_entry ht :
  reachable ht → build_exprs_agree ht →
  (∀ r, rejects ht (Some r) = false →
     entries (Insert (Some r) ht) ≡ₚ Some r :: entries ht
     ∧ HashSet_size (hash_tbl_ (Insert (Some r) ht)) = S (HashSet_size (hash_tbl_ ht))
     ∧ (Z.of_nat (HashSet_size (hash_tbl_ ht)) < INT_MAX →
        size (Insert (Some r) ht) = size ht + 1))
  ∧ (∀ rows probe_row it,
       (∀ r, r ∈ rows → key_matches ht probe_row (Some r)) →
       let sc := Scan (Some probe_row) it (insert_rows rows ht) in
       ∃ produced,
         drain (remaining sc.2) sc.1 sc.2 = Some (produced, SkipToEnd sc.2)
         ∧ length produced
           = (length rows + length (filter (key_matches ht probe_row) (entries ht)))%nat).
Proof.
  intros Hreach Hagree. split.
  - intros r Hacc%accepted_rejects.
    pose proof (entries_Insert_accepted ht r Hacc) as Hperm.
    assert (HashSet_size (hash_tbl_ (Insert (Some r) ht)) = S (HashSet_size (hash_tbl_ ht)))
      as Hsize by (unfold HashSet_size; fold (entries (Insert (Some r) ht)); by rewrite Hperm).
    split_and!; [done..|]. intros Hfits.
    unfold size. rewrite Hsize, !int_of_size_t_small; unfold INT_MAX in *; lia.
  - intros rows probe_row it Hrows sc.
    pose proof (insert_rows_steps rows ht) as Hsteps.
    exists (range_entries (insert_rows rows ht) sc.2). split; [apply drain_Scan|].
    subst sc. rewrite Scan_probe_matching
      by eauto using reachable_steps, steps_agree.
    rewrite (list_filter_iff _ (key_matches ht probe_row))
      by (intros e; by apply steps_key_matches).
    rewrite entries_insert_rows, filter_app, length_app. f_equal.
    rewrite (filter_Forall_all (accepted ht) rows)
      by (apply Forall_forall; intros r Hr; eapply key_matches_accepted, Hrows, Hr).
    rewrite filter_Forall_all, length_fmap; [done|].
    apply Forall_fmap, Forall_forall. intros r Hr. by apply Hrows.
Qed.

(** C5: [HashFn] mixes the values of the second build expressions over a
  real row, and those of the probe expressions over the row being probed
  for the sentinel, in the same way; so the sentinel hashes, for a probe
  row, to the hash of every build row of equal key values. *)
Theorem HashFn_probe_build_agree ht probe_row build_row :
  eval_exprs (probe_exprs_ ht) (Some probe_row)
    = eval_exprs (build_exprs2_ ht) (Some build_row) →
  HashFn ht (Some build_row)
    = fold_left hash_combine (eval_exprs (build_exprs2_ ht) (Some build_row)) hash_seed
  ∧ HashFn ht NULL
    = fold_left hash_combine (eval_exprs (probe_exprs_ ht) (current_probe_row_ ht)) hash_seed
  ∧ ∀ it, HashFn (Scan (Some probe_row) it ht).1 NULL
          = HashFn (Scan (Some probe_row) it ht).1 (Some build_row).
Proof.
  intros Hkeys. split_and!.
  - apply hash_values_hash_key.
  - apply hash_values_hash_key.
  - intros it. rewrite HashFn_sentinel, HashFn_stored. unfold stored_key.
    cbn [Scan fst probe_exprs_ build_exprs2_ current_probe_row_ set_current_probe_row].
    by rewrite Hkeys.
Qed.

(** C6: [EqualsFn] resolves each side on its own, the sentinel to the key
  tuple of the probe expressions over the row being probed and a real row
  to the key tuple of build expressions over that row, and answers true
  exactly when the two tuples agree value by value, a null agreeing with a
  null only when the table stores nulls. *)
Theorem EqualsFn_contract ht a b :
  EqualsFn ht a b = true
  ↔ Forall2 (value_eq (stores_nulls_ ht))
      (match a with
       | None => eval_exprs (probe_exprs_ ht) (current_probe_row_ ht)
       | Some _ => eval_exprs (build_exprs1_ ht) a
       end)
      (match b with
       | None => eval_exprs (probe_exprs_ ht) (current_probe_row_ ht)
       | Some _ => eval_exprs (build_exprs2_ ht) b
       end).
Proof. apply EqualsFn_spec. Qed.

(** C7: [Scan] changes nothing of the table but [current_probe_row_]: the
  multi-set, the entries it holds and [size] are what they were. *)
Theorem Scan_frame probe_row it ht :
  (Scan probe_row it ht).1 = set_current_probe_row probe_row ht
  ∧ hash_tbl_ (Scan probe_row it ht).1 = hash_tbl_ ht
  ∧ entries (Scan probe_row it ht).1 = entries ht
  ∧ size (Scan probe_row it ht).1 = size ht
  ∧ build_exprs1_ (Scan probe_row it ht).1 = build_exprs1_ ht
  ∧ build_exprs2_ (Scan probe_row it ht).1 = build_exprs2_ ht
  ∧ probe_exprs_ (Scan probe_row it ht).1 = probe_exprs_ ht
  ∧ stores_nulls_ (Scan probe_row it ht).1 = stores_nulls_ ht.
Proof. by destruct probe_row. Qed.

(** C8: once [HasNext] reports false, every call of [GetNext] returns
  [NULL] and leaves the iterator as it was, however often it is called. *)
Theorem GetNext_past_the_end ht it n :
  HasNext it = false →
  GetNext ht it = (NULL, it)
  ∧ HasNext (GetNext ht it).2 = false
  ∧ GetNext_times n ht it = (replicate n NULL, it).
Proof.
  intros Hend. rewrite GetNext_exhausted by done.
  split_and!; [done..|]. by apply GetNext_times_exhausted.
Qed.

(** C9: wherever the cursor is, after [SkipToEnd] the iterator is at its
  end: [HasNext] reports false, and every [GetNext] returns [NULL]. *)
Theorem SkipToEnd_ends ht it n :
  HasNext (SkipToEnd it) = false
  ∧ end_ (SkipToEnd it) = end_ it
  ∧ GetNext ht (SkipToEnd it) = (NULL, SkipToEnd it)
  ∧ GetNext_times n ht (SkipToEnd it) = (replicate n NULL, SkipToEnd it).
Proof.
  pose proof (HasNext_SkipToEnd it) as Hend. split_and!; [done..| |].
  - by apply GetNext_exhausted.
  - by apply GetNext_times_exhausted.
Qed.

(** C10: [Scan] stores its probe argument in [current_probe_row_] before
  anything else, whatever the argument: a full scan leaves the sentinel
  there, dropping the row an earlier [Scan] recorded, although the range
  of a full scan does not depend on that field. *)
Theorem Scan_overwrites_current_probe_row probe_row it ht :
  current_probe_row_ (Scan probe_row it ht).1 = probe_row
  ∧ (∀ r it', current_probe_row_ (Scan NULL it (Scan (Some r) it' ht).1).1 = NULL)
  ∧ (∀ r, (Scan NULL it (set_current_probe_row r ht)).2 = (Scan NULL it ht).2).
Proof. split_and!; [by destruct probe_row|done..]. Qed.

(** ** More about the iterator protocol *)

Section unordered_multiset_lookup.
Context {K : Type} (pred : K → K → bool).
Implicit Types (s : HashSet K) (g : node_group K) (h : N) (k : K).

Lemma group_first_elements g s : g ∈ s → group_first g ∈ HashSet_elements s.
Proof.
  induction 1 as [g s|g g' s _ IH]; rewrite HashSet_elements_cons; apply elem_of_app.
  - left. by left.
  - by right.
Qed.

(** No group whose first node the predicate accepts: [(end(), end())]. *)
Lemma equal_range_from_miss h k s pos :
  Forall (λ g, pred k (group_first g) = false) s →
  equal_range_from pred h k s pos
  = ((pos + HashSet_size s)%nat, (pos + HashSet_size s)%nat).
Proof.
  intros Hmiss. revert pos. induction Hmiss as [|g s Hg _ IH]; intros pos.
  - unfold HashSet_size. simpl. by rewrite Nat.add_0_r.
  - cbn [equal_range_from]. unfold group_accepts. rewrite Hg, andb_false_r.
    rewrite IH, HashSet_size_cons. f_equal; lia.
Qed.

(** A range that is not empty starts at a node the predicate accepts. *)
Lemma equal_range_from_hit h k s (pre : list K) :
  ((equal_range_from pred h k s (length pre)).1
   < (equal_range_from pred h k s (length pre)).2)%nat →
  ∃ x, (pre ++ HashSet_elements s) !! (equal_range_from pred h k s (length pre)).1 = Some x
       ∧ x ∈ HashSet_elements s ∧ pred k x = true.
Proof.
  revert pre. induction s as [|g s IH]; intros pre; cbn [equal_range_from].
  - cbn [fst snd]. lia.
  - destruct (group_accepts pred h k g) eqn:Hacc; cbn [fst snd].
    + intros _. exists (group_first g). rewrite HashSet_elements_cons. split_and!.
      * rewrite lookup_app_r by lia. by rewrite Nat.sub_diag.
      * apply elem_of_app. left. by left.
      * unfold group_accepts in Hacc. by apply andb_true_iff in Hacc as [_ ?].
    + intros Hlt. specialize (IH (pre ++ group_nodes g)).
      rewrite length_app in IH. destruct (IH Hlt) as (x & Hx & Hin & Hpred).
      exists x. rewrite HashSet_elements_cons. split_and!; [|apply elem_of_app; by right|done].
      by rewrite (assoc_L (++)).
Qed.
End unordered_multiset_lookup.

Lemma reachable_entries_Some ht : reachable ht → Forall is_Some (entries ht).
Proof.
  intros [rows Hrows]. rewrite (inserted_entries ht rows Hrows).
  apply Forall_fmap, Forall_forall. by eexists.
Qed.

Lemma range_entries_here ht it x :
  (i_ it < end_ it)%nat → entries ht !! i_ it = Some x →
  range_entries ht it = x :: range_entries ht (mkIterator (S (i_ it)) (end_ it)).
Proof.
  intros Hlt Hx. unfold range_entries, remaining. cbn [i_ end_].
  rewrite (drop_S _ _ _ Hx).
  by replace (end_ it - i_ it)%nat with (S (end_ it - S (i_ it))) by lia.
Qed.

Lemma range_entries_end ht it : i_ it = end_ it → range_entries ht it = [].
Proof. intros Heq. unfold range_entries, remaining. by rewrite Heq, Nat.sub_diag. Qed.

Lemma GetNext_here ht it x :
  (i_ it < end_ it)%nat → entries ht !! i_ it = Some x →
  GetNext ht it = (x, mkIterator (S (i_ it)) (end_ it)).
Proof.
  intros Hlt Hx. unfold GetNext, HasNext, deref.
  destruct (Nat.eqb_spec (i_ it) (end_ it)) as [|_]; [lia|]. cbn [negb].
  fold (entries ht). by rewrite Hx.
Qed.

Lemma HasNext_false it : HasNext it = false ↔ i_ it = end_ it.
Proof. unfold HasNext. destruct (Nat.eqb_spec (i_ it) (end_ it)); naive_solver. Qed.

(** [n] calls hand out the head of the range, then [NULL]s. *)
Lemma GetNext_times_range n ht it :
  (i_ it ≤ end_ it)%nat → (end_ it ≤ length (entries ht))%nat →
  GetNext_times n ht it
  = (take n (range_entries ht it) ++ replicate (n - remaining it) NULL,
     mkIterator (i_ it + n `min` remaining it) (end_ it)).
Proof.
  revert it. induction n as [|n IH]; intros it Hie Hlen.
  - cbn [GetNext_times]. rewrite take_0. cbn [replicate app].
    destruct it as [i e]. cbn [i_ end_]. by rewrite Nat.add_0_r.
  - cbn [GetNext_times]. destruct (decide (i_ it = end_ it)) as [Heq|Hne].
    + rewrite GetNext_exhausted by by apply HasNext_false.
      rewrite IH by done. rewrite range_entries_end by done.
      unfold remaining. rewrite Heq, Nat.sub_diag, !take_nil, !Nat.sub_0_r.
      by rewrite !Nat.min_0_r.
    + destruct (lookup_lt_is_Some_2 (entries ht) (i_ it)) as [x Hx]; [lia|].
      rewrite (GetNext_here ht it x) by (done || lia).
      rewrite IH by (cbn [i_ end_]; lia).
      rewrite (range_entries_here ht it x) by (done || lia).
      unfold remaining. cbn [i_ end_ take app].
      replace (S n - (end_ it - i_ it))%nat with (n - (end_ it - S (i_ it)))%nat by lia.
      by replace (i_ it + S n `min` (end_ it - i_ it))%nat
        with (S (i_ it) + n `min` (end_ it - S (i_ it)))%nat by lia.
Qed.

Lemma range_entries_advance k ht it :
  (k ≤ remaining it)%nat →
  range_entries ht it
  = take k (range_entries ht it) ++ range_entries ht (mkIterator (i_ it + k) (end_ it)).
Proof.
  intros Hk. unfold range_entries, remaining in *. cbn [i_ end_].
  rewrite take_take, Nat.min_l by done.
  replace (end_ it - i_ it)%nat with (k + (end_ it - (i_ it + k)))%nat at 1 by lia.
  by rewrite <- take_take_drop, drop_drop.
Qed.

Lemma drain_until_NULL_range fuel ht it :
  Forall is_Some (entries ht) →
  (i_ it ≤ end_ it)%nat → (end_ it ≤ length (entries ht))%nat →
  (remaining it < fuel)%nat →
  ∃ rows, drain_until_NULL fuel ht it = Some (rows, SkipToEnd it)
          ∧ Some <$> rows = range_entries ht it.
Proof.
  intros Hsome. revert it. induction fuel as [|fuel IH]; intros it Hie Hlen Hfuel; [lia|].
  cbn [drain_until_NULL]. destruct (decide (i_ it = end_ it)) as [Heq|Hne].
  - rewrite GetNext_exhausted by by apply HasNext_false.
    exists []. rewrite range_entries_end by done. split; [|done].
    destruct it as [i e]. cbn [i_ end_] in Heq. by subst.
  - destruct (lookup_lt_is_Some_2 (entries ht) (i_ it)) as [x Hx]; [lia|].
    rewrite (GetNext_here ht it x) by (done || lia).
    rewrite (range_entries_here ht it x) by (done || lia).
    rewrite Forall_forall in Hsome.
    destruct (Hsome x) as [r ->]; [by eapply list_elem_of_lookup_2|].
    destruct (IH (mkIterator (S (i_ it)) (end_ it))) as (rows & -> & Hrows);
      [cbn [i_ end_]; lia..|unfold remaining in *; cbn [i_ end_]; lia|].
    exists (r :: rows). split; [done|]. by rewrite fmap_cons, Hrows.
Qed.

(** No call takes an entry away. *)
Lemma step_entries ht ht' :
  step ht ht' → ∃ added, entries ht' ≡ₚ added ++ entries ht.
Proof.
  destruct 1 as [ht r|ht probe_row it].
  - eexists. apply entries_Insert.
  - exists []. by rewrite entries_Scan.
Qed.

Lemma steps_entries ht ht' :
  rtc step ht ht' → ∃ added, entries ht' ≡ₚ added ++ entries ht.
Proof.
  induction 1 as [ht|ht ht1 ht' Hstep _ [added2 IH]]; [by exists []|].
  destruct (step_entries _ _ Hstep) as [added1 H1].
  exists (added2 ++ added1). by rewrite IH, H1, (assoc_L (++)).
Qed.

Lemma range_entries_Scan probe_row it ht it' :
  range_entries (Scan probe_row it ht).1 it' = range_entries ht it'.
Proof. unfold range_entries. by rewrite entries_Scan. Qed.

Lemma length_range_entries ht it :
  (i_ it ≤ end_ it)%nat → (end_ it ≤ length (entries ht))%nat →
  length (range_entries ht it) = remaining it.
Proof.
  intros Hie Hlen. unfold range_entries, remaining.
  rewrite length_take, length_drop. lia.
Qed.

Lemma GetNext_times_Scan n probe_row it ht :
  GetNext_times n (Scan probe_row it ht).1 (Scan probe_row it ht).2
  = (take n (range_entries ht (Scan probe_row it ht).2)
       ++ replicate (n - remaining (Scan probe_row it ht).2) NULL,
     mkIterator (i_ (Scan probe_row it ht).2 + n `min` remaining (Scan probe_row it ht).2)
       (end_ (Scan probe_row it ht).2)).
Proof.
  destruct (Scan_range probe_row it ht) as [Hie Hlen].
  rewrite GetNext_times_range by (by rewrite ?entries_Scan).
  by rewrite range_entries_Scan.
Qed.

(** ** Further properties of the table and its iterators *)

(** X1: on a table built by [Insert]s of real rows, wherever an iterator
  handed out by [Scan] stands after any number of [GetNext] calls, the
  next [GetNext] returns [NULL] exactly when [HasNext] reports false. *)
Theorem GetNext_NULL_iff_exhausted ht probe_row it k :
  reachable ht →
  let sc := Scan probe_row it ht in
  let it_k := (GetNext_times k sc.1 sc.2).2 in
  (GetNext sc.1 it_k).1 = NULL ↔ HasNext it_k = false.
Proof.
  intros Hreach sc it_k. subst it_k sc. rewrite GetNext_times_Scan. cbn [snd].
  destruct (Scan_range probe_row it ht) as [Hie Hlen].
  set (sc := Scan probe_row it ht) in *. set (it_k := mkIterator _ _).
  split; [|intros Hend; by rewrite GetNext_exhausted].
  intros Hnull. apply HasNext_false. destruct (decide (i_ it_k = end_ it_k)) as [|Hne]; [done|].
  assert (i_ it_k < end_ it_k)%nat as Hlt
    by (subst it_k; unfold remaining in *; cbn [i_ end_] in *; lia).
  destruct (lookup_lt_is_Some_2 (entries sc.1) (i_ it_k)) as [x Hx].
  { subst sc. rewrite entries_Scan. subst it_k. cbn [i_ end_] in *. lia. }
  rewrite (GetNext_here sc.1 it_k x Hlt Hx) in Hnull. cbn [fst] in Hnull. subst x.
  apply list_elem_of_lookup_2 in Hx. subst sc. rewrite entries_Scan in Hx.
  pose proof (reachable_entries_Some ht Hreach) as Hsome.
  rewrite Forall_forall in Hsome. by destruct (Hsome _ Hx).
Qed.

(** X2: [n] calls of [GetNext] on the iterator of a [Scan] hand out the
  first [n] entries of its range, in order, and [NULL] for every call
  beyond the range; the cursor stops at the end of the range. *)
Theorem GetNext_times_yields_prefix ht probe_row it n :
  let sc := Scan probe_row it ht in
  ∃ produced,
    drain (remaining sc.2) sc.1 sc.2 = Some (produced, SkipToEnd sc.2)
    ∧ (GetNext_times n sc.1 sc.2).1
      = take n produced ++ replicate (n - length produced) NULL
    ∧ (GetNext_times n sc.1 sc.2).2
      = mkIterator (i_ sc.2 + n `min` length produced) (end_ sc.2).
Proof.
  intros sc. exists (range_entries ht sc.2). split; [apply drain_Scan|].
  destruct (Scan_range probe_row it ht) as [Hie Hlen].
  subst sc. by rewrite GetNext_times_Scan, length_range_entries.
Qed.

(** X3: a scan can be resumed: after [k] calls of [GetNext], draining the
  iterator gives the rest of the range, so that what the calls returned
  followed by the rest is what draining the fresh iterator gives. *)
Theorem partial_scan_resumes ht probe_row it k :
  let sc := Scan probe_row it ht in
  (k ≤ remaining sc.2)%nat →
  ∃ rest,
    drain (remaining (GetNext_times k sc.1 sc.2).2) sc.1 (GetNext_times k sc.1 sc.2).2
    = Some (rest, SkipToEnd sc.2)
    ∧ drain (remaining sc.2) sc.1 sc.2
      = Some ((GetNext_times k sc.1 sc.2).1 ++ rest, SkipToEnd sc.2).
Proof.
  intros sc Hk. destruct (Scan_range probe_row it ht) as [Hie Hlen].
  subst sc. rewrite GetNext_times_Scan. cbn [fst snd].
  set (sc := Scan probe_row it ht) in *.
  rewrite Nat.min_l by done.
  exists (range_entries ht (mkIterator (i_ sc.2 + k) (end_ sc.2))). split.
  - rewrite drain_range.
    + subst sc. by rewrite range_entries_Scan.
    + unfold remaining in Hk. cbn [i_ end_]. lia.
    + subst sc. by rewrite entries_Scan.
    + done.
  - subst sc. rewrite drain_Scan. f_equal. f_equal.
    replace (k - remaining (Scan probe_row it ht).2)%nat with 0%nat by lia.
    cbn [replicate]. rewrite app_nil_r. by apply range_entries_advance.
Qed.

(** X4: on a table that holds nothing, every [Scan], keyed or full, hands
  out an iterator that is at its end at once, and [size] is 0. *)
Theorem Scan_empty_table ht probe_row it :
  entries ht = [] →
  HasNext (Scan probe_row it ht).2 = false
  ∧ GetNext (Scan probe_row it ht).1 (Scan probe_row it ht).2
    = (NULL, (Scan probe_row it ht).2)
  ∧ size ht = 0.
Proof.
  intros Hempty. destruct (Scan_range probe_row it ht) as [Hie Hlen].
  rewrite Hempty in Hlen. cbn [length] in Hlen.
  assert (HasNext (Scan probe_row it ht).2 = false) as Hend
    by (apply HasNext_false; lia).
  split_and!; [done|by apply GetNext_exhausted|].
  unfold size, HashSet_size. fold (entries ht). by rewrite Hempty.
Qed.

(** X5: a [Scan] owes nothing to the scans before it nor to the iterator
  it is given: after any other [Scan], it leaves the table and the
  iterator exactly as it would have without it. *)
Theorem Scan_forgets_earlier_scans ht probe_row it earlier_row it1 it2 :
  Scan probe_row it2 (Scan earlier_row it1 ht).1 = Scan probe_row it ht.
Proof. by destruct probe_row, earlier_row. Qed.

(** X6: [Insert] touches nothing but the multi-set: the row being probed,
  the three expression sets, the row descriptor and the null policy are
  what they were, whether the row is stored or turned away. *)
Theorem Insert_frame r ht :
  current_probe_row_ (Insert r ht) = current_probe_row_ ht
  ∧ build_exprs1_ (Insert r ht) = build_exprs1_ ht
  ∧ build_exprs2_ (Insert r ht) = build_exprs2_ ht
  ∧ probe_exprs_ (Insert r ht) = probe_exprs_ ht
  ∧ build_row_desc_ (Insert r ht) = build_row_desc_ ht
  ∧ stores_nulls_ (Insert r ht) = stores_nulls_ ht
  ∧ Insert r ht = set_hash_tbl (hash_tbl_ (Insert r ht)) ht.
Proof. unfold Insert. destruct (_ && _); [by destruct ht|done]. Qed.

(** X7: [Insert] returns the table as it was exactly when its test turns
  the row away; in particular a table that stores nulls never does. *)
Theorem Insert_unchanged_iff_rejects r ht :
  (Insert r ht = ht ↔ rejects ht r = true)
  ∧ (stores_nulls_ ht = true →
     HashSet_size (hash_tbl_ (Insert r ht)) = S (HashSet_size (hash_tbl_ ht))).
Proof.
  unfold Insert, rejects. split.
  - destruct (negb (stores_nulls_ ht) && HasNulls ht r); [done|].
    split; [|done]. intros Heq.
    apply (f_equal (λ t, HashSet_size (hash_tbl_ t))) in Heq. cbn [hash_tbl_ set_hash_tbl] in Heq.
    rewrite HashSet_insert_size in Heq. lia.
  - intros ->. cbn [negb andb hash_tbl_ set_hash_tbl]. apply HashSet_insert_size.
Qed.

(** X8: whatever the table holds, the iterator [Scan] hands out lies
  within the table, and draining it terminates after [end_ - i_] calls
  with a run of consecutive entries of the full-scan order. *)
Theorem Scan_range_is_a_run ht probe_row it :
  let sc := Scan probe_row it ht in
  (i_ sc.2 ≤ end_ sc.2 ≤ length (entries ht))%nat
  ∧ ∃ produced,
      drain (remaining sc.2) sc.1 sc.2 = Some (produced, SkipToEnd sc.2)
      ∧ length produced = remaining sc.2
      ∧ entries ht = take (i_ sc.2) (entries ht) ++ produced ++ drop (end_ sc.2) (entries ht).
Proof.
  intros sc. destruct (Scan_range probe_row it ht) as [Hie Hlen]. split; [done|].
  exists (range_entries ht sc.2). split_and!.
  - apply drain_Scan.
  - by apply length_range_entries.
  - fold sc in Hie, Hlen. unfold range_entries, remaining.
    rewrite take_drop_commute.
    replace (i_ sc.2 + (end_ sc.2 - i_ sc.2))%nat with (end_ sc.2) by lia.
    rewrite drop_take_drop by done. by rewrite take_drop.
Qed.

(** X9: no call takes an entry away: along any sequence of [Insert]s and
  [Scan]s every stored entry stays stored, as often as it was, and the
  number of entries never goes down. *)
Theorem entries_never_removed ht ht' :
  rtc step ht ht' →
  (∃ added, entries ht' ≡ₚ added ++ entries ht)
  ∧ (∀ e, e ∈ entries ht → e ∈ entries ht')
  ∧ (length (entries ht) ≤ length (entries ht'))%nat.
Proof.
  intros [added Hadded]%steps_entries. split_and!.
  - by exists added.
  - intros e He. rewrite Hadded. apply elem_of_app. by right.
  - rewrite Hadded, length_app. lia.
Qed.

(** X10: a probe for a key the table does not hold: when [EqualsFn]
  accepts no stored entry for the probe row, [Scan] hands out the empty
  range at the end of the table, whatever the hash codes are. *)
Theorem Scan_probe_miss ht probe_row it :
  let sc := Scan (Some probe_row) it ht in
  (∀ e, e ∈ entries ht → EqualsFn sc.1 NULL e = false) →
  sc.2 = mkIterator (length (entries ht)) (length (entries ht))
  ∧ HasNext sc.2 = false
  ∧ drain 0 sc.1 sc.2 = Some ([], sc.2).
Proof.
  intros sc Hmiss.
  assert (sc.2 = mkIterator (length (entries ht)) (length (entries ht))) as Hsc.
  { subst sc. unfold Scan, Reset, HashSet_equal_range. cbn [fst snd].
    rewrite equal_range_from_miss; [done|].
    apply Forall_forall. intros g Hg. by apply Hmiss, group_first_elements. }
  assert (HasNext sc.2 = false) as Hend by (rewrite Hsc; apply HasNext_false; done).
  split_and!; [done..|]. cbn [drain]. by rewrite Hend.
Qed.

(** X11: a probe that finds something: when the iterator of a keyed
  [Scan] has a next entry, the first [GetNext] returns a stored entry that
  [EqualsFn] accepts for the probe row, and moves the cursor by one. *)
Theorem Scan_probe_hit ht probe_row it :
  let sc := Scan (Some probe_row) it ht in
  HasNext sc.2 = true →
  ∃ e, GetNext sc.1 sc.2 = (e, mkIterator (S (i_ sc.2)) (end_ sc.2))
       ∧ e ∈ entries ht
       ∧ EqualsFn sc.1 NULL e = true.
Proof.
  intros sc Hnext. destruct (Scan_range (Some probe_row) it ht) as [Hie Hlen].
  fold sc in Hie, Hlen.
  assert (i_ sc.2 < end_ sc.2)%nat as Hlt.
  { destruct (decide (i_ sc.2 = end_ sc.2)) as [Heq|]; [|lia].
    apply HasNext_false in Heq. congruence. }
  destruct (equal_range_from_hit (EqualsFn sc.1) (HashFn sc.1 NULL) NULL (hash_tbl_ ht) [])
    as (x & Hx & Hin & Hacc); [exact Hlt|].
  exists x. split_and!; [|done..].
  apply GetNext_here; [done|]. subst sc. by rewrite entries_Scan.
Qed.

(** X12: the build phase does not depend on the order of its rows: the
  same rows inserted in another order leave the same entries, each as
  often. *)
Theorem insert_rows_any_order rows rows' ht :
  rows ≡ₚ rows' →
  entries (insert_rows rows ht) ≡ₚ entries (insert_rows rows' ht).
Proof. intros Hperm. by rewrite !entries_insert_rows, Hperm. Qed.

(** X13: on a table built by [Insert]s of real rows the two loops a
  consumer may write agree: calling [GetNext] until it returns [NULL]
  collects the rows that calling it while [HasNext] holds collects, with
  one call more. *)
Theorem drain_until_NULL_agrees ht probe_row it :
  reachable ht →
  let sc := Scan probe_row it ht in
  ∃ rows,
    drain_until_NULL (S (remaining sc.2)) sc.1 sc.2 = Some (rows, SkipToEnd sc.2)
    ∧ drain (remaining sc.2) sc.1 sc.2 = Some (Some <$> rows, SkipToEnd sc.2).
Proof.
  intros Hreach sc. destruct (Scan_range probe_row it ht) as [Hie Hlen].
  destruct (drain_until_NULL_range (S (remaining sc.2)) sc.1 sc.2) as (rows & Hrows & Heq).
  - subst sc. rewrite entries_Scan. by apply reachable_entries_Some.
  - done.
  - subst sc. by rewrite entries_Scan.
  - lia.
  - exists rows. split; [done|]. subst sc.
    by rewrite drain_Scan, Heq, range_entries_Scan.
Qed.

End HashTable.

(** ** A worked table

  Rows are lists of nullable integer slots, an expression reads one slot,
  and the mix is the one of [boost::hash_combine] on 64 bits.  The build
  rows are (k=1, v=97), (k=1, v=98) and (k=2, v=99), keyed by their first
  slot. *)
Module demo.

Definition GetValue (e : nat) (row : option (list (option Z))) : option Z :=
  match row with
  | Some slots => default None (slots !! e)
  | None => None
  end.

Definition hash_seed : N := 0.

Definition hash_combine (seed : N) (v : option Z) : N :=
  let hv := match v with Some z => Z.to_N (z mod 2 ^ 64) | None => 0%N end in
  N.lxor seed ((hv + 0x9e3779b9 + N.shiftl seed 6 + N.shiftr seed 2) mod 2 ^ 64)%N.

Definition row_a : list (option Z) := [Some 1; Some 97].
Definition row_b : list (option Z) := [Some 1; Some 98].
Definition row_c : list (option Z) := [Some 2; Some 99].
Definition row_null : list (option Z) := [None; Some 100].
Definition probe_1 : list (option Z) := [Some 1].
Definition probe_3 : list (option Z) := [Some 3].

Abbreviation Table := (@HashTable nat unit (list (option Z))).

Definition Insert := impala.Insert (RowDescriptor:=unit) GetValue hash_seed hash_combine.
Definition Scan := impala.Scan (RowDescriptor:=unit) GetValue hash_seed hash_combine.

Definition empty_table (stores_nulls : bool) : Table :=
  HashTable_new [0%nat] [0%nat] [0%nat] tt stores_nulls.

Definition table3 : Table :=
  Insert (Some row_c) (Insert (Some row_b) (Insert (Some row_a) (empty_table false))).

Definition it0 : Iterator := mkIterator 0 0.

(** A table of [n] entries: the same row inserted [n] times. *)
Definition filled (n : nat) : Table :=
  Nat.iter n (Insert (Some row_a)) (empty_table true).

(** Tables of 2^31 - 1 and of 2^31 entries. *)
Definition full_table : Table := filled (Z.to_nat INT_MAX).
Definition overfull_table : Table := Insert (Some row_a) full_table.

(** The scenario: probing with key 1 gives the two rows of key 1, probing
  with key 3 gives nothing, and the full scan gives all three rows. *)
Example table3_probe_1 :
  drain 2 (Scan (Some probe_1) it0 table3).1 (Scan (Some probe_1) it0 table3).2
  = Some ([Some row_a; Some row_b], mkIterator 3 3).
Proof. reflexivity. Qed.

Example table3_probe_3 :
  drain 0 (Scan (Some probe_3) it0 table3).1 (Scan (Some probe_3) it0 table3).2
  = Some ([], mkIterator 3 3).
Proof. reflexivity. Qed.

Example table3_full_scan :
  drain 3 (Scan None it0 table3).1 (Scan None it0 table3).2
  = Some ([Some row_c; Some row_a; Some row_b], mkIterator 3 3).
Proof. reflexivity. Qed.

Example table3_rejects_null : Insert (Some row_null) table3 = table3.
Proof. reflexivity. Qed.

(** Under "stores nulls" two rows of null key are both stored, and a probe
  row of null key finds both; under "rejects nulls" it finds nothing. *)
Example null_keys_match :
  let ht := Insert (Some row_null) (Insert (Some row_null) (empty_table true)) in
  size ht = 2
  ∧ drain 2 (Scan (Some [None]) it0 ht).1 (Scan (Some [None]) it0 ht).2
    = Some ([Some row_null; Some row_null], mkIterator 2 2).
Proof. split; reflexivity. Qed.

Example null_keys_rejected :
  drain 0 (Scan (Some [None]) it0 table3).1 (Scan (Some [None]) it0 table3).2
  = Some ([], mkIterator 3 3).
Proof. reflexivity. Qed.

Example int_of_size_t_wraps :
  int_of_size_t 2147483647 = 2147483647 ∧ int_of_size_t 2147483648 = -2147483648.
Proof. split; reflexivity. Qed.

Lemma table3_inserted :
  inserted GetValue hash_seed hash_combine table3 [row_c; row_b; row_a].
Proof.
  unfold table3, Insert.
  apply inserted_Insert, inserted_Insert, inserted_Insert, inserted_new.
Qed.

Lemma table3_reachable : reachable GetValue hash_seed hash_combine table3.
Proof. exists [row_c; row_b; row_a]. apply table3_inserted. Qed.

Lemma table3_agree : build_exprs_agree GetValue table3.
Proof. intros r. reflexivity. Qed.

(** *** Tables too large to write down *)

Lemma filled_S n : filled (S n) = Insert (Some row_a) (filled n).
Proof. reflexivity. Qed.

Lemma filled_stores_nulls n : stores_nulls_ (filled n) = true.
Proof.
  induction n as [|n IH]; [done|].
  rewrite filled_S. unfold Insert, impala.Insert. by rewrite IH.
Qed.

Lemma filled_reachable n : reachable GetValue hash_seed hash_combine (filled n).
Proof.
  induction n as [|n IH]; [apply reachable_new|].
  rewrite filled_S. eapply reachable_step; [exact IH|apply step_Insert].
Qed.

Lemma filled_accepted n r : accepted GetValue (filled n) r.
Proof. left. apply filled_stores_nulls. Qed.

Lemma filled_size n : HashSet_size (hash_tbl_ (filled n)) = n.
Proof.
  induction n as [|n IH]; [done|].
  rewrite filled_S. unfold Insert. rewrite Insert_accepted by apply filled_accepted.
  cbn [hash_tbl_ set_hash_tbl]. by rewrite HashSet_insert_size, IH.
Qed.

Lemma filled_size_wraps n :
  Z.of_nat n = INT_MAX →
  size (filled n) = 2147483647 ∧ size (Insert (Some row_a) (filled n)) = -2147483648.
Proof.
  intros Hn. rewrite <- filled_S. unfold size.
  rewrite !filled_size, Nat2Z.inj_succ, Hn. split; reflexivity.
Qed.

Lemma filled_size_not_succ n :
  Z.of_nat n = INT_MAX →
  size (Insert (Some row_a) (filled n)) ≠ size (filled n) + 1.
Proof. intros [-> ->]%filled_size_wraps. discriminate. Qed.

Lemma filled_scan_wraps n :
  Z.of_nat n = INT_MAX →
  ∃ produced,
    drain (remaining (Scan None it0 (Insert (Some row_a) (filled n))).2)
      (Scan None it0 (Insert (Some row_a) (filled n))).1
      (Scan None it0 (Insert (Some row_a) (filled n))).2
    = Some (produced, SkipToEnd (Scan None it0 (Insert (Some row_a) (filled n))).2)
    ∧ Z.of_nat (length produced) = 2147483648
    ∧ size (Insert (Some row_a) (filled n)) = -2147483648
    ∧ Z.of_nat (length produced) ≠ size (Insert (Some row_a) (filled n)).
Proof.
  intros Hn. exists (entries (Insert (Some row_a) (filled n))).
  assert (Z.of_nat (length (entries (Insert (Some row_a) (filled n)))) = 2147483648)
    as Hlen.
  { rewrite <- filled_S. unfold entries. fold (HashSet_size (hash_tbl_ (filled (S n)))).
    rewrite filled_size, Nat2Z.inj_succ, Hn. reflexivity. }
  destruct (filled_size_wraps n Hn) as [_ Hsize]. split_and!; [|done..|].
  - unfold Scan. by rewrite drain_Scan, Scan_full_entries.
  - rewrite Hlen, Hsize. discriminate.
Qed.

Lemma INT_MAX_to_nat : Z.of_nat (Z.to_nat INT_MAX) = INT_MAX.
Proof. apply Z2Nat.id. unfold INT_MAX. lia. Qed.

(** *** The properties at work *)

(** Probing the scenario with key 1. *)
Lemma Scan_probe_witness :
  ∃ produced,
    drain 2 (Scan (Some probe_1) it0 table3).1 (Scan (Some probe_1) it0 table3).2
    = Some (produced, mkIterator 3 3)
    ∧ produced = [Some row_a; Some row_b].
Proof.
  destruct (Scan_probe_yields_equal_keys GetValue hash_seed hash_combine
    table3 probe_1 it0 table3_reachable table3_agree) as (produced & Hdrain & _ & Hprod & _).
  exists produced. split; [exact Hdrain|exact Hprod].
Defined.

(** The full scan of the scenario. *)
Lemma Scan_sentinel_witness :
  ∃ produced,
    drain 3 (Scan None it0 table3).1 (Scan None it0 table3).2
    = Some (produced, mkIterator 3 3)
    ∧ produced = [Some row_c; Some row_a; Some row_b]
    ∧ size table3 = 3.
Proof.
  destruct (Scan_sentinel_yields_all GetValue hash_seed hash_combine
    table3 [row_c; row_b; row_a] it0 table3_inserted)
    as (produced & Hdrain & Hprod & _ & Hsize).
  exists produced. split; [exact Hdrain|]. split; [exact Hprod|].
  rewrite Hprod in Hsize. apply Hsize. unfold INT_MAX. simpl. lia.
Defined.

(** A row with a null key is offered to the scenario. *)
Lemma Insert_rejects_witness :
  Insert (Some row_null) table3 = table3 ∧ size (Insert (Some row_null) table3) = 3.
Proof.
  destruct (Insert_rejects_null_key GetValue hash_seed hash_combine
    table3 row_null table3_reachable eq_refl) as (Hsame & Hsize & _).
  - vm_compute. constructor.
  - split; [exact Hsame|exact Hsize].
Defined.

(** One more row, then two more rows of key 1, on top of the scenario. *)
Lemma Insert_adds_witness :
  size (Insert (Some row_a) table3) = 4
  ∧ ∃ produced,
      drain 4 (Scan (Some probe_1) it0 (insert_rows GetValue hash_seed hash_combine
                 [row_a; row_b] table3)).1
              (Scan (Some probe_1) it0 (insert_rows GetValue hash_seed hash_combine
                 [row_a; row_b] table3)).2
      = Some (produced, mkIterator 5 5)
      ∧ length produced = 4%nat.
Proof.
  destruct (Insert_adds_one_entry GetValue hash_seed hash_combine
    table3 table3_reachable table3_agree) as [Hone Hmany].
  split.
  - destruct (Hone row_a eq_refl) as (_ & _ & Hsize).
    apply Hsize. vm_compute. reflexivity.
  - destruct (Hmany [row_a; row_b] probe_1 it0) as (produced & Hdrain & Hlen).
    + intros r Hr. apply list_elem_of_In in Hr.
      destruct Hr as [<-|[<-|[]]]; repeat constructor.
    + exists produced. split; [exact Hdrain|exact Hlen].
Defined.

(** The probe row of key 1 hashes like the build row of key 1. *)
Lemma HashFn_witness :
  HashFn GetValue hash_seed hash_combine (Scan (Some probe_1) it0 table3).1 None
  = HashFn GetValue hash_seed hash_combine (Scan (Some probe_1) it0 table3).1 (Some row_a).
Proof.
  destruct (HashFn_probe_build_agree GetValue hash_seed hash_combine
    table3 probe_1 row_a eq_refl) as (_ & _ & Hsame).
  exact (Hsame it0).
Defined.

(** An iterator of the scenario at its end. *)
Lemma GetNext_witness :
  GetNext table3 (mkIterator 3 3) = (None, mkIterator 3 3)
  ∧ GetNext_times 2 table3 (mkIterator 3 3) = ([None; None], mkIterator 3 3).
Proof.
  destruct (GetNext_past_the_end table3 (mkIterator 3 3) 2 eq_refl) as (Hone & _ & Hmany).
  split; [exact Hone|exact Hmany].
Defined.

(** [Insert] into a table of 2^31 - 1 entries: [size] does not grow by
  one, it wraps around. *)
Lemma Insert_size_wraps :
  reachable GetValue hash_seed hash_combine full_table
  ∧ rejects GetValue full_table (Some row_a) = false
  ∧ size full_table = 2147483647
  ∧ size (Insert (Some row_a) full_table) = -2147483648
  ∧ size (Insert (Some row_a) full_table) ≠ size full_table + 1.
Proof.
  unfold full_table. split; [apply filled_reachable|].
  split; [apply accepted_rejects, filled_accepted|].
  destruct (filled_size_wraps _ INT_MAX_to_nat) as [Hbefore Hafter].
  split; [exact Hbefore|]. split; [exact Hafter|].
  apply filled_size_not_succ, INT_MAX_to_nat.
Qed.

(** The full scan of a table of 2^31 entries hands out 2^31 entries,
  which is not what [size] reports. *)
Lemma Scan_sentinel_size_wraps :
  reachable GetValue hash_seed hash_combine overfull_table
  ∧ ∃ produced,
    drain (remaining (Scan None it0 overfull_table).2)
      (Scan None it0 overfull_table).1 (Scan None it0 overfull_table).2
    = Some (produced, SkipToEnd (Scan None it0 overfull_table).2)
    ∧ Z.of_nat (length produced) = 2147483648
    ∧ size overfull_table = -2147483648
    ∧ Z.of_nat (length produced) ≠ size overfull_table.
Proof.
  unfold overfull_table, full_table. split.
  - eapply reachable_step; [apply filled_reachable|apply step_Insert].
  - apply filled_scan_wraps, INT_MAX_to_nat.
Qed.

(** *** The further properties at work *)

(** After one call, the iterator of the probe with key 1 is not at its end
  and the next call returns a row. *)
Lemma GetNext_NULL_witness :
  (GetNext (Scan (Some probe_1) it0 table3).1
     (GetNext_times 1 (Scan (Some probe_1) it0 table3).1 (Scan (Some probe_1) it0 table3).2).2).1
  = None
  ↔ HasNext
      (GetNext_times 1 (Scan (Some probe_1) it0 table3).1 (Scan (Some probe_1) it0 table3).2).2
    = false.
Proof.
  exact (GetNext_NULL_iff_exhausted GetValue hash_seed hash_combine
    table3 (Some probe_1) it0 1 table3_reachable).
Defined.

(** One call on the full scan, then the rest. *)
Lemma partial_scan_witness :
  ∃ rest,
    drain 2 (Scan None it0 table3).1 (mkIterator 1 3) = Some (rest, mkIterator 3 3)
    ∧ drain 3 (Scan None it0 table3).1 (Scan None it0 table3).2
      = Some (Some row_c :: rest, mkIterator 3 3).
Proof.
  destruct (partial_scan_resumes GetValue hash_seed hash_combine table3 None it0 1)
    as (rest & Hrest & Hall).
  - vm_compute. lia.
  - exists rest. split; [exact Hrest|exact Hall].
Defined.

(** Scans of the table as constructed. *)
Lemma Scan_empty_witness :
  HasNext (Scan (Some probe_1) it0 (empty_table false)).2 = false
  ∧ size (empty_table false) = 0.
Proof.
  destruct (Scan_empty_table GetValue hash_seed hash_combine
    (empty_table false) (Some probe_1) it0 eq_refl) as (Hend & _ & Hsize).
  split; [exact Hend|exact Hsize].
Defined.

Lemma table3_steps :
  rtc (step GetValue hash_seed hash_combine) (Insert (Some row_a) (empty_table false)) table3.
Proof.
  unfold table3, Insert.
  eapply rtc_l; [apply step_Insert|]. eapply rtc_l; [apply step_Insert|]. apply rtc_refl.
Qed.

(** The first row of the scenario is still there after the other two. *)
Lemma entries_never_removed_witness :
  Some row_a ∈ entries table3 ∧ (1 ≤ length (entries table3))%nat.
Proof.
  destruct (entries_never_removed GetValue hash_seed hash_combine
    (Insert (Some row_a) (empty_table false)) table3 table3_steps) as (_ & Hin & Hlen).
  split; [|exact Hlen]. apply Hin. vm_compute. constructor.
Defined.

(** Probing the scenario with key 3. *)
Lemma Scan_probe_miss_witness :
  (Scan (Some probe_3) it0 table3).2 = mkIterator 3 3
  ∧ HasNext (Scan (Some probe_3) it0 table3).2 = false.
Proof.
  destruct (Scan_probe_miss GetValue hash_seed hash_combine table3 probe_3 it0)
    as (Hit & Hend & _).
  - intros e He. apply list_elem_of_In in He.
    destruct He as [<-|[<-|[<-|[]]]]; reflexivity.
  - split; [exact Hit|exact Hend].
Defined.

(** Probing the scenario with key 1: the first row handed out. *)
Lemma Scan_probe_hit_witness :
  ∃ e, GetNext (Scan (Some probe_1) it0 table3).1 (Scan (Some probe_1) it0 table3).2
       = (e, mkIterator 2 3)
       ∧ e ∈ entries table3
       ∧ EqualsFn GetValue (Scan (Some probe_1) it0 table3).1 None e = true.
Proof.
  exact (Scan_probe_hit GetValue hash_seed hash_combine table3 probe_1 it0 eq_refl).
Defined.

(** Two rows in either order. *)
Lemma insert_rows_order_witness :
  entries (insert_rows GetValue hash_seed hash_combine [row_a; row_c] (empty_table false))
  ≡ₚ entries (insert_rows GetValue hash_seed hash_combine [row_c; row_a] (empty_table false)).
Proof.
  apply (insert_rows_any_order GetValue hash_seed hash_combine). apply perm_swap.
Defined.

(** The two loops on the probe with key 1. *)
Lemma drain_until_NULL_witness :
  ∃ rows,
    drain_until_NULL 3 (Scan (Some probe_1) it0 table3).1 (Scan (Some probe_1) it0 table3).2
    = Some (rows, mkIterator 3 3)
    ∧ drain 2 (Scan (Some probe_1) it0 table3).1 (Scan (Some probe_1) it0 table3).2
      = Some (Some <$> rows, mkIterator 3 3).
Proof.
  exact (drain_until_NULL_agrees GetValue hash_seed hash_combine
    table3 (Some probe_1) it0 table3_reachable).
Defined.

End demo.

End impala.
